(** * data-veil: recognition engine and desensitization processor

    A shallow embedding of [backend/app/recognition_engine.py] and
    [backend/app/desensitization_processor.py], with the properties of the
    deduplicator, the pattern scan, the masking strategies and the
    reverse-order splice.

    Conventions of the embedding:
    - a Python [str] is a list of Unicode code points ([list N]); [len],
      slicing and indexing count code points, as Python does;
    - a Python [int] is a [Z]; slices clip their bounds and count negative
      bounds from the end, as Python slices do;
    - [confidence] is an IEEE binary64 float ([PrimFloat.float]) compared with
      the primitive [<] and [==];
    - a [dict] is a [gmap], a [set] of positions a [gset Z]; the ordered
      pattern table is an association list, since its order matters;
    - code that may raise returns a [result];
    - [re] is embedded for the fragment the six patterns of the code use:
      sequences of quantified character classes, greedy or lazy, matched
      with backtracking;
    - the [uuid4] identifier of a [SensitiveItem] and the log calls are left
      out: neither module reads them. *)

From Stdlib Require Import ZArith List Bool Lia String Ascii Floats.
From stdpp Require Import gmap list sorting.

Local Open Scope Z_scope.

(** ** Strings as code point lists *)

Abbreviation char := N (only parsing).
Abbreviation str := (list N) (only parsing).

(** An ASCII literal of the source, as code points. *)
Definition lit (s : string) : str :=
  map N_of_ascii (list_ascii_of_string s).

Definition len (s : str) : Z := Z.of_nat (length s).

Definition str_eqb (a b : str) : bool := bool_decide (a = b).

(** ['*' * n]: a negative count gives the empty string. *)
Definition stars (n : Z) : str := replicate (Z.to_nat n) 42%N.

(** The bound of a slice: negative bounds count from the end, and every bound
    is clipped to [0, len]. *)
Definition slice_bound (n i : Z) : Z :=
  if i <? 0 then Z.max 0 (n + i) else Z.min i n.

(** [s[:i]] *)
Definition slice_to (s : str) (i : Z) : str :=
  take (Z.to_nat (slice_bound (len s) i)) s.

(** [s[i:]] *)
Definition slice_from (s : str) (i : Z) : str :=
  drop (Z.to_nat (slice_bound (len s) i)) s.

(** [s[i]] as a one-character string. The source indexes only under a guard on
    [len] that keeps the index in range; out of range (an [IndexError] in
    Python) the embedding gives the empty string. *)
Definition char_at (s : str) (i : Z) : str :=
  let j := if i <? 0 then len s + i else i in
  if (0 <=? j) && (j <? len s) then take 1 (drop (Z.to_nat j) s) else [].

(** [c in s] for a single character [c]. *)
Definition contains_char (c : N) (s : str) : bool :=
  existsb (N.eqb c) s.

(** [s.split(c, 1)] when [c] occurs in [s]: the text before and after the
    first occurrence. *)
Fixpoint split_first (c : N) (s : str) : str * str :=
  match s with
  | [] => ([], [])
  | x :: s' =>
      if N.eqb x c then ([], s')
      else let '(a, b) := split_first c s' in (x :: a, b)
  end.

(** ** Exceptions *)

Inductive exn :=
| ValueError
| RecognitionError
| OtherException.

Inductive result (A : Type) :=
| Ok (a : A)
| Raise (e : exn).
Arguments Ok {A} a.
Arguments Raise {A} e.

(** Sequencing: an exception of the first computation skips the second. The
    instances give the notation [x ← r; k]. *)
#[export] Instance result_ret : MRet result := fun _ a => Ok a.

#[export] Instance result_bind : MBind result := fun _ _ k r =>
  match r with
  | Ok a => k a
  | Raise e => Raise e
  end.

(** ** The fragment of [re] the code uses

    Every pattern of the two modules is a sequence of quantified character
    classes: [\d{17}], [[3-9]], [.*?], [[a-zA-Z]{2,}]. An atom is a class with
    its bounds and its greediness. *)

Record atom := Atom {
  cls : N -> bool;
  rmin : nat;
  rmax : option nat;
  greedy : bool
}.

Definition regex := list atom.

(** The number of leading characters of [s] in class [p], at most [cap]. *)
Fixpoint run (p : N -> bool) (cap : option nat) (s : str) : nat :=
  match cap, s with
  | Some O, _ => O
  | _, [] => O
  | _, c :: s' =>
      if p c then S (run p (match cap with Some (S k) => Some k | _ => cap end) s')
      else O
  end.

(** Try [f] at [base + d], [base + d - 1], ..., [base]: a greedy quantifier
    gives characters back one at a time. *)
Fixpoint try_down (f : nat -> option nat) (base d : nat) : option nat :=
  match d with
  | O => f base
  | S d' =>
      match f (base + S d')%nat with
      | Some r => Some r
      | None => try_down f base d'
      end
  end.

(** Try [f] at [lo], [lo + 1], ..., [lo + d]: a lazy quantifier takes
    characters one at a time. *)
Fixpoint try_up (f : nat -> option nat) (lo d : nat) : option nat :=
  match f lo with
  | Some r => Some r
  | None =>
      match d with
      | O => None
      | S d' => try_up f (S lo) d'
      end
  end.

(** The length of the match of [r] at the start of [s], if any: the first one
    in backtracking order. *)
Fixpoint match_here (r : regex) (s : str) : option nat :=
  match r with
  | [] => Some O
  | a :: r' =>
      let n := run (cls a) (rmax a) s in
      if (n <? rmin a)%nat then None
      else
        let continue k := option_map (Nat.add k) (match_here r' (drop k s)) in
        if greedy a then try_down continue (rmin a) (n - rmin a)
        else try_up continue (rmin a) (n - rmin a)
  end.

(** [re.finditer(r, text)] as the list of [(match.start(), match.end())],
    left to right, for a pattern that cannot match the empty string (every
    pattern given to [finditer] in the code needs at least one character):
    the scan resumes where the last match ended. [skip] counts the
    characters of [s] that the last match still covers. *)
Fixpoint finditer_from (r : regex) (s : str) (pos : Z) (skip : nat)
  : list (Z * Z) :=
  match s with
  | [] => []
  | _ :: s' =>
      match skip with
      | S k => finditer_from r s' (pos + 1) k
      | O =>
          match match_here r s with
          | Some n =>
              (pos, pos + Z.of_nat n) :: finditer_from r s' (pos + 1) (n - 1)
          | None => finditer_from r s' (pos + 1) O
          end
      end
  end.

Definition finditer (r : regex) (text : str) : list (Z * Z) :=
  finditer_from r text 0 O.

(** [re.match(r, s)]: the matched prefix. *)
Definition re_match (r : regex) (s : str) : option str :=
  option_map (fun n => take n s) (match_here r s).

(** Character classes. *)
Definition in_range (lo hi : N) (c : N) : bool :=
  (N.leb lo c && N.leb c hi)%bool.

Definition one_of (l : list N) (c : N) : bool := existsb (N.eqb c) l.

Definition ascii_digit : N -> bool := in_range 48 57.

Definition ascii_alpha (c : N) : bool :=
  (in_range 97 122 c || in_range 65 90 c)%bool.

(** [.] without [re.DOTALL]: anything but a newline. *)
Definition dot (c : N) : bool := negb (N.eqb c 10).

Definition exactly (p : N -> bool) (n : nat) : atom := Atom p n (Some n) true.
Definition at_least (p : N -> bool) (n : nat) : atom := Atom p n None true.
Definition between (p : N -> bool) (m n : nat) : atom := Atom p m (Some n) true.
Definition lazy_star (p : N -> bool) : atom := Atom p O None false.

(** ** recognition_engine.py *)

(** [SensitiveItem]: the dataclass, without its [id]. *)
Record SensitiveItem := mkSensitiveItem {
  type : str;
  value : str;
  start_pos : Z;
  end_pos : Z;
  confidence : float
}.

(** The generated [__init__] followed by [__post_init__]. *)
Definition SensitiveItem_init (ty v : str) (s e : Z) (c : float)
  : result SensitiveItem :=
  if e <? s then Raise ValueError
  else Ok (mkSensitiveItem ty v s e c).

(** A [for] loop whose body may raise. *)
Fixpoint foldM {A B} (f : B -> A -> result B) (b : B) (l : list A)
  : result B :=
  match l with
  | [] => Ok b
  | x :: l' => b' ← f b x; foldM f b' l'
  end.

(** [range(start, end)] *)
Definition py_range (start end_ : Z) : list Z := seqZ start (end_ - start).

(** [text[start:end]] for the bounds of a match. *)
Definition match_group (text : str) (start end_ : Z) : str :=
  slice_to (slice_from text start) (end_ - start).

(** An entity of a spaCy document. *)
Record entity := Entity {
  label_ : str;
  ent_text : str;
  start_char : Z;
  end_char : Z
}.

(** The literal [0.8] of [_nlp_recognition]: the nearest binary64 value. *)
Definition nlp_confidence : float := 0x1.999999999999ap-1%float.

Section Recognition.

(** [\d] on a [str] pattern: the decimal digits of the Unicode database
    of the running Python (category Nd). *)
Variable unicode_decimal : N -> bool.

(** [_load_nlp_model] as its outcome: the pipeline, which maps a text to the
    entities of its document or raises; [RecognitionError] when loading
    fails; another exception when the download in the handler fails. *)
Variable load_nlp_model : result (str -> result (list entity)).

(** [REGEX_PATTERNS], in insertion order. *)
Definition REGEX_PATTERNS : list (str * regex) :=
  [ (lit "id_card",
      [ exactly unicode_decimal 17;
        exactly (fun c => unicode_decimal c || one_of [88; 120]%N c) 1 ]);
    (lit "bank_card", [ between unicode_decimal 16 19 ]);
    (lit "phone",
      [ exactly (N.eqb 49) 1; exactly (in_range 51 57) 1;
        exactly unicode_decimal 9 ]);
    (lit "email",
      [ at_least (fun c => ascii_alpha c || ascii_digit c
                           || one_of [46; 95; 37; 43; 45]%N c) 1;
        exactly (N.eqb 64) 1;
        at_least (fun c => ascii_alpha c || ascii_digit c
                           || one_of [46; 45]%N c) 1;
        exactly (N.eqb 46) 1;
        at_least ascii_alpha 2 ]) ].

(** The body of the inner loop of [_regex_recognition], for one match. *)
Definition regex_match_step (data_type text : str)
    (st : list SensitiveItem * gset Z) (m : Z * Z)
  : result (list SensitiveItem * gset Z) :=
  let '(items, matched_positions) := st in
  let '(start, end_) := m in
  let overlaps :=
    existsb (fun pos => bool_decide (pos ∈ matched_positions))
            (py_range start end_) in
  if overlaps then Ok st
  else
    item ← SensitiveItem_init data_type (match_group text start end_)
                               start end_ 1%float;
    Ok (items ++ [item],
        foldl (fun mp pos => {[pos]} ∪ mp) matched_positions
              (py_range start end_)).

Definition _regex_recognition (text : str) : result (list SensitiveItem) :=
  st ← foldM (fun st '(data_type, pattern) =>
                foldM (regex_match_step data_type text) st
                      (finditer pattern text))
             ([], ∅) REGEX_PATTERNS;
  Ok st.1.

(** The body of the loop of [_nlp_recognition], for one entity. *)
Definition nlp_entity_step (items : list SensitiveItem) (ent : entity)
  : result (list SensitiveItem) :=
  let data_type :=
    if str_eqb (label_ ent) (lit "PERSON") then Some (lit "name")
    else if existsb (str_eqb (label_ ent)) [lit "GPE"; lit "LOC"; lit "FAC"]
         then Some (lit "address")
         else None in
  match data_type with
  | None => Ok items
  | Some data_type =>
      item ← SensitiveItem_init data_type (ent_text ent)
                                 (start_char ent) (end_char ent) nlp_confidence;
      Ok (items ++ [item])
  end.

Definition _nlp_recognition (text : str) : result (list SensitiveItem) :=
  nlp ← load_nlp_model;
  ents ← nlp text;
  foldM nlp_entity_step [] ents.

End Recognition.

(** [sorted(l, key=...)]: a stable sort, as insertion sort. [before y x] says
    that the key of [y] is strictly before the key of [x]; [x] is put in
    front of the first element not strictly before it, so equal keys keep
    their order. *)
Fixpoint insert_by {A} (before : A -> A -> bool) (x : A) (l : list A)
  : list A :=
  match l with
  | [] => [x]
  | y :: l' => if before y x then y :: insert_by before x l' else x :: l
  end.

Definition sorted_by {A} (before : A -> A -> bool) (l : list A) : list A :=
  foldr (insert_by before) [] l.

(** [(a.start_pos, a.end_pos) < (b.start_pos, b.end_pos)] *)
Definition key_lt (a b : SensitiveItem) : bool :=
  (start_pos a <? start_pos b)
  || ((start_pos a =? start_pos b) && (end_pos a <? end_pos b)).

(** [not (item.end_pos <= existing.start_pos or
          item.start_pos >= existing.end_pos)] *)
Definition overlap (item existing : SensitiveItem) : bool :=
  negb ((end_pos item <=? start_pos existing)
        || (start_pos item >=? end_pos existing)).

(** The inner loop of [_deduplicate] up to its [break]: the index and the
    element of the first accepted item that [item] overlaps. *)
Fixpoint first_overlap (item : SensitiveItem) (deduplicated : list SensitiveItem)
    (i : nat) : option (nat * SensitiveItem) :=
  match deduplicated with
  | [] => None
  | existing :: rest =>
      if overlap item existing then Some (i, existing)
      else first_overlap item rest (S i)
  end.

(** The body of the outer loop of [_deduplicate]. *)
Definition dedup_step (deduplicated : list SensitiveItem) (item : SensitiveItem)
  : list SensitiveItem :=
  match first_overlap item deduplicated O with
  | Some (i, existing) =>
      if PrimFloat.ltb (confidence existing) (confidence item)
      then <[i := item]> deduplicated
      else if PrimFloat.eqb (confidence item) (confidence existing)
      then if PrimFloat.eqb (confidence item) 1%float
           then <[i := item]> deduplicated
           else deduplicated
      else deduplicated
  | None => deduplicated ++ [item]
  end.

Definition _deduplicate (items : list SensitiveItem) : list SensitiveItem :=
  match items with
  | [] => []
  | _ =>
      let sorted_items := sorted_by key_lt items in
      foldl dedup_step [] sorted_items
  end.

(** [identify_sensitive_data] *)
Definition identify_sensitive_data (unicode_decimal : N -> bool)
    (load_nlp_model : result (str -> result (list entity)))
    (text : str) (use_nlp : bool) : result (list SensitiveItem) :=
  regex_items ← _regex_recognition unicode_decimal text;
  items ←
    (if use_nlp then
       match _nlp_recognition load_nlp_model text with
       | Ok nlp_items => Ok (regex_items ++ nlp_items)
       | Raise RecognitionError => Raise RecognitionError
       | Raise _ => Ok regex_items
       end
     else Ok regex_items);
  Ok (_deduplicate items).

(** ** desensitization_processor.py *)

Record DesensitizationRule := mkRule {
  rule_id : str;
  rule_name : str;
  data_type : str;
  strategy : str;
  enabled : bool
}.

(** The three concrete subclasses of [DesensitizationStrategy]. *)
Inductive DesensitizationStrategy :=
| MaskStrategy
| ReplaceStrategy
| DeleteStrategy.

(** The two patterns of [_mask_address]: [(.*?[省市].*?[市区县])] and
    [(.*?[市区县])]. Group 1 is the whole match. *)
Definition address_patterns : list regex :=
  [ [ lazy_star dot; exactly (one_of [30465; 24066]%N) 1;
      lazy_star dot; exactly (one_of [24066; 21306; 21439]%N) 1 ];
    [ lazy_star dot; exactly (one_of [24066; 21306; 21439]%N) 1 ] ].

(** The loop of [_mask_address]: the prefix matched by the first pattern that
    matches. *)
Fixpoint first_prefix (patterns : list regex) (address : str) : option str :=
  match patterns with
  | [] => None
  | pattern :: rest =>
      match re_match pattern address with
      | Some prefix => Some prefix
      | None => first_prefix rest address
      end
  end.

Definition _mask_address (address : str) : str :=
  match first_prefix address_patterns address with
  | Some prefix => prefix ++ lit "******"
  | None =>
      if len address >? 6 then slice_to address 6 ++ lit "******"
      else lit "******"
  end.

Definition _mask_email (email : str) : str :=
  if negb (contains_char 64 email) then email
  else
    let '(username, domain) := split_first 64 email in
    let masked_username :=
      if len username <=? 1 then lit "*"
      else char_at username 0 ++ lit "***" in
    masked_username ++ lit "@" ++ domain.

(** [MaskStrategy.apply] *)
Definition mask_apply (value data_type : str) : str :=
  if str_eqb value [] then value
  else if str_eqb data_type (lit "name") then
    if len value <=? 1 then value
    else char_at value 0 ++ stars (len value - 1)
  else if str_eqb data_type (lit "id_card") then
    if len value <? 18 then value
    else slice_to value 6 ++ stars 8 ++ slice_from value (-4)
  else if str_eqb data_type (lit "phone") then
    if len value <? 11 then value
    else slice_to value 3 ++ lit "****" ++ slice_from value (-4)
  else if str_eqb data_type (lit "address") then
    _mask_address value
  else if str_eqb data_type (lit "bank_card") then
    if len value <? 8 then value
    else
      let middle_length := len value - 8 in
      slice_to value 4 ++ stars middle_length ++ slice_from value (-4)
  else if str_eqb data_type (lit "email") then
    _mask_email value
  else
    if len value <=? 2 then stars (len value)
    else char_at value 0 ++ stars (len value - 2) ++ char_at value (-1).

(** [ReplaceStrategy.PLACEHOLDERS] *)
Definition PLACEHOLDERS : gmap (list N) (list N) :=
  list_to_map
    [ (lit "name", [91; 22995; 21517; 93]%N);
      (lit "id_card", [91; 36523; 20221; 35777; 93]%N);
      (lit "phone", [91; 30005; 35805; 93]%N);
      (lit "address", [91; 22320; 22336; 93]%N);
      (lit "bank_card", [91; 38134; 34892; 21345; 93]%N);
      (lit "email", [91; 37038; 31665; 93]%N) ].

(** [ReplaceStrategy.apply] *)
Definition replace_apply (value data_type : str) : str :=
  default [91; 25935; 24863; 20449; 24687; 93]%N (PLACEHOLDERS !! data_type).

(** [DeleteStrategy.apply] *)
Definition delete_apply (value data_type : str) : str := [].

(** Dynamic dispatch of [strategy.apply]. *)
Definition apply (s : DesensitizationStrategy) (value data_type : str) : str :=
  match s with
  | MaskStrategy => mask_apply value data_type
  | ReplaceStrategy => replace_apply value data_type
  | DeleteStrategy => delete_apply value data_type
  end.

(** [self.strategies] of [DesensitizationProcessor.__init__] *)
Definition strategies : gmap (list N) DesensitizationStrategy :=
  list_to_map
    [ (lit "mask", MaskStrategy);
      (lit "replace", ReplaceStrategy);
      (lit "delete", DeleteStrategy) ].

Fixpoint _find_rule (ty : str) (rules : list DesensitizationRule)
  : option DesensitizationRule :=
  match rules with
  | [] => None
  | rule :: rest =>
      if str_eqb (data_type rule) ty && enabled rule then Some rule
      else _find_rule ty rest
  end.

(** [f"{item.type}:{item.value}"] *)
Definition cache_key (item : SensitiveItem) : str :=
  type item ++ lit ":" ++ value item.

(** The body of the loop of [process] on the state [(result, value_mapping)].
    Besides the new state it gives the [new_value] spliced in, if any. *)
Definition process_item (rules : list DesensitizationRule)
    (st : list N * gmap (list N) (list N)) (item : SensitiveItem)
  : (list N * gmap (list N) (list N)) * option (list N) :=
  let '(result, value_mapping) := st in
  match _find_rule (type item) rules with
  | Some rule =>
      if enabled rule then
        match strategies !! strategy rule with
        | Some strategy =>
            let '(new_value, value_mapping) :=
              match value_mapping !! cache_key item with
              | Some new_value => (new_value, value_mapping)
              | None =>
                  let new_value := apply strategy (value item) (type item) in
                  (new_value, <[cache_key item := new_value]> value_mapping)
              end in
            ((slice_to result (start_pos item) ++ new_value
                ++ slice_from result (end_pos item),
              value_mapping),
             Some new_value)
        | None => (st, None)
        end
      else (st, None)
  | None => (st, None)
  end.

(** The loop of [process]: the final state and, in order, the replacement
    produced for each item that got one. *)
Fixpoint process_loop (rules : list DesensitizationRule)
    (st : list N * gmap (list N) (list N)) (items : list SensitiveItem)
  : (list N * gmap (list N) (list N)) * list (SensitiveItem * list N) :=
  match items with
  | [] => (st, [])
  | item :: rest =>
      let '(st', new_value) := process_item rules st item in
      let '(st'', log) := process_loop rules st' rest in
      (st'', match new_value with
             | Some v => (item, v) :: log
             | None => log
             end)
  end.

(** [sorted(sensitive_items, key=lambda x: x.start_pos, reverse=True)] *)
Definition sort_reverse (sensitive_items : list SensitiveItem)
  : list SensitiveItem :=
  sorted_by (fun y x => start_pos x <? start_pos y) sensitive_items.

Definition is_empty {A} (l : list A) : bool :=
  match l with [] => true | _ => false end.

(** [DesensitizationProcessor.process] *)
Definition process (text : str) (sensitive_items : list SensitiveItem)
    (rules : list DesensitizationRule) : str :=
  if is_empty text || is_empty sensitive_items then text
  else (process_loop rules (text, ∅) (sort_reverse sensitive_items)).1.1.

(** The replacements [process] produces on the way, with their items. *)
Definition replacements (text : str) (sensitive_items : list SensitiveItem)
    (rules : list DesensitizationRule) : list (SensitiveItem * list N) :=
  if is_empty text || is_empty sensitive_items then []
  else (process_loop rules (text, ∅) (sort_reverse sensitive_items)).2.

(** [needle in haystack] *)
Definition substring (needle haystack : str) : Prop :=
  exists before after, haystack = before ++ needle ++ after.

(** ** cli.py *)

(** The recognition step of [CLIProcessor.process_file]: recognition
    with NLP first and, on [RecognitionError], once more without. *)
Definition cli_identify (unicode_decimal : N -> bool)
    (load_nlp_model : result (str -> result (list entity)))
    (content : str) : result (list SensitiveItem) :=
  match identify_sensitive_data unicode_decimal load_nlp_model content true with
  | Raise RecognitionError =>
      identify_sensitive_data unicode_decimal load_nlp_model content false
  | sensitive_items => sensitive_items
  end.

(** ** api.py *)

(** The statistic [desensitized_items] of [preview_desensitization]: the
    number of items of whose type some rule is, and enabled. *)
Definition desensitized_items (processor_items : list SensitiveItem)
    (processor_rules : list DesensitizationRule) : nat :=
  length
    (List.filter
       (fun item =>
          existsb (fun rule => str_eqb (data_type rule) (type item)
                               && enabled rule)
                  processor_rules)
       processor_items).

(** ** Vocabulary of the properties *)

(** [x] may stand in front of [y] in a list sorted by [before]. *)
Definition inorder {A} (before : A -> A -> bool) (x y : A) : Prop :=
  before y x = false.

(** Two spans do not overlap. *)
Definition disjoint_spans (a b : SensitiveItem) : Prop :=
  end_pos a <= start_pos b \/ start_pos a >= end_pos b.

(** No two items of the list, at different indices, overlap. *)
Definition conflict_free (l : list SensitiveItem) : Prop :=
  forall i j a b,
    l !! i = Some a -> l !! j = Some b -> i <> j -> disjoint_spans a b.

(** The least number of characters a match of [r] takes. *)
Definition min_len (r : regex) : nat := foldr (fun a n => (rmin a + n)%nat) O r.

(** The state of the pattern scan: every emitted item is a non-empty span
    whose positions are all claimed. *)
Definition claimed (st : list SensitiveItem * gset Z) : Prop :=
  forall item, item ∈ st.1 ->
    start_pos item < end_pos item
    /\ forall pos, start_pos item <= pos < end_pos item -> pos ∈ st.2.

(** The names [process] has a strategy for. *)
Definition known_strategy (name : str) : bool :=
  bool_decide (name ∈ [lit "mask"; lit "replace"; lit "delete"]).

(** The item resolves to an enabled rule whose strategy name is unknown. *)
Definition unknown_strategy (rules : list DesensitizationRule)
    (item : SensitiveItem) : bool :=
  match _find_rule (type item) rules with
  | Some rule => negb (known_strategy (strategy rule))
  | None => false
  end.


(** The most characters a match of [r] takes, when every atom is bounded. *)
Fixpoint max_len (r : regex) : option nat :=
  match r with
  | [] => Some O
  | a :: r' =>
      match rmax a, max_len r' with
      | Some m, Some n => Some (m + n)%nat
      | _, _ => None
      end
  end.

(** What the pattern scan promises of an item: it lies in the text, it is
    not empty, its value is the text it covers, it has the confidence of a
    pattern match, and its category's pattern matches the text at its start
    with exactly its characters. *)
Definition scanned (unicode_decimal : N -> bool) (text : str)
    (item : SensitiveItem) : Prop :=
  0 <= start_pos item < end_pos item
  /\ end_pos item <= len text
  /\ value item = match_group text (start_pos item) (end_pos item)
  /\ confidence item = 1%float
  /\ exists pattern,
       (type item, pattern) ∈ REGEX_PATTERNS unicode_decimal
       /\ match_here pattern (drop (Z.to_nat (start_pos item)) text)
          = Some (Z.to_nat (end_pos item - start_pos item)).

(** [a] ends where [b] starts, or before. *)
Definition ends_before (a b : SensitiveItem) : Prop :=
  end_pos a <= start_pos b.

(** A span with at least one position. *)
Definition nonempty_span (item : SensitiveItem) : Prop :=
  start_pos item < end_pos item.

(** The spans of [items] lie in [[0, bound]], each one left of the one
    before it: the order in which [process] walks spans that do not
    overlap. *)
Fixpoint chain (bound : Z) (items : list SensitiveItem) : Prop :=
  match items with
  | [] => True
  | item :: rest =>
      0 <= start_pos item <= end_pos item
      /\ end_pos item <= bound
      /\ chain (start_pos item) rest
  end.

(** The output written in one pass, from the replacements in the order
    [process] makes them (right to left): [text[:right]] with each replaced
    span exchanged for its replacement, the text between the spans copied. *)
Fixpoint rebuild (text : str) (log : list (SensitiveItem * str)) (right : Z)
  : str :=
  match log with
  | [] => slice_to text right
  | (item, new_value) :: log' =>
      rebuild text log' (start_pos item)
        ++ new_value ++ match_group text (end_pos item) right
  end.

(** By how much the replacements of [log] lengthen the text. *)
Definition growth (log : list (SensitiveItem * str)) : Z :=
  foldr (fun '(item, new_value) n =>
           len new_value - (end_pos item - start_pos item) + n) 0 log.

(** The loop body of [process] replaces the item: its rule is found and
    names a strategy there is. *)
Definition replaced (rules : list DesensitizationRule) (item : SensitiveItem)
  : bool :=
  match _find_rule (type item) rules with
  | Some rule =>
      enabled rule
      && match strategies !! strategy rule with
         | Some _ => true
         | None => false
         end
  | None => false
  end.

(** The entities [_nlp_recognition] keeps, and the item it makes of one. *)
Definition nlp_data_type (ent : entity) : option str :=
  if str_eqb (label_ ent) (lit "PERSON") then Some (lit "name")
  else if existsb (str_eqb (label_ ent)) [lit "GPE"; lit "LOC"; lit "FAC"]
       then Some (lit "address")
       else None.

Definition nlp_items (ents : list entity) : list SensitiveItem :=
  omap (fun ent =>
          match nlp_data_type ent with
          | Some data_type =>
              Some (mkSensitiveItem data_type (ent_text ent) (start_char ent)
                                    (end_char ent) nlp_confidence)
          | None => None
          end) ents.

(** The position of the first character of class [p] in [s]. *)
Fixpoint index_of (p : N -> bool) (s : str) : option nat :=
  match s with
  | [] => None
  | c :: s' => if p c then Some O else option_map S (index_of p s')
  end.

(** The first line of [s]: its characters before the first newline. *)
Definition first_line (s : str) : str := take (run dot None s) s.

(** The marks of a province or municipality, and of a city, district or
    county, in an address. *)
Definition province_mark : N -> bool := one_of [30465; 24066]%N.
Definition district_mark : N -> bool := one_of [24066; 21306; 21439]%N.

(** The part of an address that stays readable, told from the address alone.
    On the first line: when a district mark follows the first province mark,
    the address up to the first such district mark; else, when there is a
    district mark, the address up to the first one; else the first six
    characters of an address of more than six, and nothing of a shorter
    one. *)
Definition kept_prefix (address : str) : str :=
  let line := first_line address in
  let up_to_district (from : nat) : option str :=
    option_map (fun j => take (from + S j) address)
               (index_of district_mark (drop from line)) in
  match
    match index_of province_mark line with
    | Some i => up_to_district (S i)
    | None => None
    end
  with
  | Some kept => kept
  | None =>
      match up_to_district O with
      | Some kept => kept
      | None => if len address >? 6 then take 6 address else []
      end
  end.

(** The values that a strategy does not hand back: every value that its
    result does not contain, provided the value has no mask character in it.
    Mask rewrites a name of two characters or more, an [id_card] of 18 or
    more, a [phone] of 11 or more, a [bank_card] of 9 or more, an address of
    which not everything is kept, an e-mail address with something before
    its ['@'], and any non-empty value of another category; Replace and
    Delete rewrite any non-empty value. *)
Definition rewritten (s : DesensitizationStrategy) (ty value : str) : Prop :=
  match s with
  | MaskStrategy =>
      if str_eqb ty (lit "name") then 2 <= len value
      else if str_eqb ty (lit "id_card") then 18 <= len value
      else if str_eqb ty (lit "phone") then 11 <= len value
      else if str_eqb ty (lit "address") then
        1 <= len value /\ kept_prefix value <> value
      else if str_eqb ty (lit "bank_card") then 9 <= len value
      else if str_eqb ty (lit "email") then
        contains_char 64 value = true
        /\ 1 <= len (split_first 64 value).1
      else 1 <= len value
  | ReplaceStrategy | DeleteStrategy => 1 <= len value
  end.







(** * Properties *)

(** ** Strings and slices *)

Lemma str_eqb_true (a b : list N) : str_eqb a b = true <-> a = b.
Proof. unfold str_eqb. apply bool_decide_eq_true. Qed.

Lemma len_app (a b : list N) : len (a ++ b) = len a + len b.
Proof. unfold len. rewrite length_app. lia. Qed.

Lemma len_stars (n : Z) : len (stars n) = Z.max 0 n.
Proof. unfold len, stars. rewrite length_replicate. lia. Qed.

Lemma len_nonneg (s : list N) : 0 <= len s.
Proof. unfold len. lia. Qed.

Lemma len_slice_to (s : list N) (i : Z) :
  len (slice_to s i) = slice_bound (len s) i.
Proof.
  unfold slice_to, slice_bound, len. rewrite length_take.
  destruct (i <? 0) eqn:E; lia.
Qed.

Lemma len_slice_from (s : list N) (i : Z) :
  len (slice_from s i) = len s - slice_bound (len s) i.
Proof.
  unfold slice_from, slice_bound, len. rewrite length_drop.
  destruct (i <? 0) eqn:E; lia.
Qed.

(** ** Span construction *)

(** [__post_init__] rejects [end_pos < start_pos] and nothing else. *)
Lemma SensitiveItem_init_ok ty v s e c :
  s <= e -> SensitiveItem_init ty v s e c = Ok (mkSensitiveItem ty v s e c).
Proof.
  intros H. unfold SensitiveItem_init.
  destruct (e <? s) eqn:E; [lia | done].
Qed.

(** C5, as the code has it: constructing a [SensitiveItem] raises
    [ValueError] exactly when [end_pos < start_pos]; with [end_pos] equal to
    [start_pos] (or greater) the item is constructed with the fields given. *)
Theorem SensitiveItem_init_spec ty v s e c :
  (e < s -> SensitiveItem_init ty v s e c = Raise ValueError)
  /\ (s <= e ->
      SensitiveItem_init ty v s e c = Ok (mkSensitiveItem ty v s e c)).
Proof.
  split; intros H; [| by apply SensitiveItem_init_ok].
  unfold SensitiveItem_init. destruct (e <? s) eqn:E; [done | lia].
Qed.

Lemma SensitiveItem_init_spec_witness :
  SensitiveItem_init (lit "phone") (lit "x") 7 4 1%float = Raise ValueError
  /\ SensitiveItem_init (lit "phone") (lit "x") 4 7 1%float
     = Ok (mkSensitiveItem (lit "phone") (lit "x") 4 7 1%float).
Proof.
  split.
  - apply (proj1 (SensitiveItem_init_spec (lit "phone") (lit "x") 7 4 1%float)).
    lia.
  - apply (proj2 (SensitiveItem_init_spec (lit "phone") (lit "x") 4 7 1%float)).
    lia.
Defined.

(** C5 fails as stated: with [end_pos = start_pos] the construction
    succeeds. *)
Lemma SensitiveItem_init_empty_span :
  5 <= 5
  /\ SensitiveItem_init (lit "phone") [] 5 5 1%float
     = Ok (mkSensitiveItem (lit "phone") [] 5 5 1%float).
Proof. split; [lia | reflexivity]. Qed.

(** ** Masking *)

(** C4 fails as stated: a 19-character [id_card] value is masked to 18
    characters, a 12-character [phone] value to 11. *)
Lemma mask_apply_shortens :
  len (lit "1101011990010112345") = 19
  /\ len (mask_apply (lit "1101011990010112345") (lit "id_card")) = 18
  /\ len (lit "138123456789") = 12
  /\ len (mask_apply (lit "138123456789") (lit "phone")) = 11.
Proof. vm_compute. auto. Qed.

Lemma str_eqb_nil (s : list N) : 0 < len s -> str_eqb s [] = false.
Proof. destruct s; [unfold len; simpl; lia | done]. Qed.

(** C4, as the code has it: on a value that meets the minimum, Mask returns
    18 characters for [id_card], 11 characters for [phone], and as many
    characters as the value has for [bank_card]; so the length is kept for
    [id_card] values of 18 characters, [phone] values of 11 characters and
    every [bank_card] value of 8 characters or more. *)
Theorem mask_apply_length (value : list N) :
  (18 <= len value -> len (mask_apply value (lit "id_card")) = 18)
  /\ (11 <= len value -> len (mask_apply value (lit "phone")) = 11)
  /\ (8 <= len value -> len (mask_apply value (lit "bank_card")) = len value).
Proof.
  repeat split; intros H; unfold mask_apply;
    (rewrite str_eqb_nil by lia);
    repeat match goal with
    | |- context [str_eqb (lit ?a) (lit ?b)] =>
        let v := eval vm_compute in (str_eqb (lit a) (lit b)) in
        change (str_eqb (lit a) (lit b)) with v; cbv iota
    end.
  - destruct (len value <? 18) eqn:E; [lia |].
    rewrite !len_app, len_slice_to, len_slice_from, len_stars.
    unfold slice_bound. simpl. lia.
  - destruct (len value <? 11) eqn:E; [lia |].
    rewrite !len_app, len_slice_to, len_slice_from.
    unfold slice_bound. simpl. unfold len at 2. simpl. lia.
  - destruct (len value <? 8) eqn:E; [lia |].
    rewrite !len_app, len_slice_to, len_slice_from, len_stars.
    unfold slice_bound. simpl. lia.
Qed.

Lemma mask_apply_length_witness :
  len (mask_apply (lit "110101199001011234") (lit "id_card")) = 18
  /\ len (mask_apply (lit "13812345678") (lit "phone")) = 11
  /\ len (mask_apply (lit "6222021234567890") (lit "bank_card"))
     = len (lit "6222021234567890").
Proof.
  split; [| split].
  - apply (proj1 (mask_apply_length (lit "110101199001011234"))).
    vm_compute. discriminate.
  - apply (proj1 (proj2 (mask_apply_length (lit "13812345678")))).
    vm_compute. discriminate.
  - apply (proj2 (proj2 (mask_apply_length (lit "6222021234567890")))).
    vm_compute. discriminate.
Defined.

(** ** Confidence comparisons *)

Lemma SFcompare_Eq_sym (x y : SpecFloat.spec_float) :
  SpecFloat.SFcompare x y = Some Eq -> SpecFloat.SFcompare y x = Some Eq.
Proof.
  destruct x as [sx | sx | | sx mx ex], y as [sy | sy | | sy my ey];
    simpl; try discriminate; try done;
    try (destruct sx; discriminate); try (destruct sy; discriminate).
  - destruct sx, sy; done.
  - destruct sx, sy; try discriminate.
    + destruct (Z.compare ex ey) eqn:E; try discriminate.
      apply Z.compare_eq in E. subst ey. intros H.
      assert (Pos.compare_cont Eq mx my = Eq) as H'
        by (destruct (Pos.compare_cont Eq mx my); simpl in H; congruence).
      apply Pos.compare_eq in H'. subst my.
      rewrite Z.compare_refl.
      change (Pos.compare_cont Eq mx mx) with (Pos.compare mx mx).
      by rewrite Pos.compare_refl.
    + destruct (Z.compare ex ey) eqn:E; try discriminate.
      apply Z.compare_eq in E. subst ey. intros H.
      assert (Pos.compare_cont Eq mx my = Eq) as H' by congruence.
      apply Pos.compare_eq in H'. subst my.
      rewrite Z.compare_refl.
      change (Pos.compare_cont Eq mx mx) with (Pos.compare mx mx).
      by rewrite Pos.compare_refl.
Qed.

(** [a == b] excludes [b < a]. *)
Lemma float_eqb_not_ltb (a b : float) :
  PrimFloat.eqb a b = true -> PrimFloat.ltb b a = false.
Proof.
  rewrite FloatAxioms.eqb_spec, FloatAxioms.ltb_spec.
  unfold SpecFloat.SFeqb, SpecFloat.SFltb. intros H.
  destruct (SpecFloat.SFcompare (Prim2SF a) (Prim2SF b)) as [[]|] eqn:E;
    try discriminate.
  by rewrite (SFcompare_Eq_sym _ _ E).
Qed.

(** ** The deduplicator *)

(** What [first_overlap] finds: the first accepted item that [item]
    overlaps, with its index counted from [k]. *)
Lemma first_overlap_Some item l k i existing :
  first_overlap item l k = Some (i, existing) ->
  (k <= i)%nat
  /\ l !! (i - k)%nat = Some existing
  /\ overlap item existing = true
  /\ forall j x, (j < i - k)%nat -> l !! j = Some x -> overlap item x = false.
Proof.
  revert k. induction l as [| y l IH]; intros k; simpl; [done |].
  destruct (overlap item y) eqn:E.
  - intros [= <- <-]. rewrite Nat.sub_diag. repeat split; auto.
    intros j x Hj. lia.
  - intros H. apply IH in H as (Hk & Hl & Ho & Hb).
    split; [lia |]. replace (i - k)%nat with (S (i - S k)) by lia.
    split; [done |]. split; [done |].
    intros [| j] x Hj Hx; simpl in Hx.
    + by injection Hx as <-.
    + apply (Hb j x); [lia | done].
Qed.

Lemma first_overlap_None item l k :
  first_overlap item l k = None ->
  forall x, x ∈ l -> overlap item x = false.
Proof.
  revert k. induction l as [| y l IH]; intros k; simpl.
  - intros _ x Hx. by apply elem_of_nil in Hx.
  - destruct (overlap item y) eqn:E; [done |].
    intros H x Hx. apply elem_of_cons in Hx as [-> | Hx]; [done |].
    by apply (IH (S k)).
Qed.

(** C3 fails as stated: two overlapping items of confidence 1.0. The
    candidate, second in sorted order, takes the place of the accepted one. *)
Lemma deduplicate_tie_at_one_replaces :
  let accepted := mkSensitiveItem (lit "bank_card") (lit "a") 0 5 1%float in
  let candidate := mkSensitiveItem (lit "phone") (lit "b") 2 7 1%float in
  overlap candidate accepted = true
  /\ PrimFloat.eqb (confidence candidate) (confidence accepted) = true
  /\ dedup_step [accepted] candidate = [candidate]
  /\ _deduplicate [accepted; candidate] = [candidate].
Proof. vm_compute. auto. Qed.

(** C3, as the code has it: when the candidate overlaps an accepted item
    (the first one it overlaps, at index [i]) and both have equal
    confidence, the accepted item is kept and the candidate discarded if the
    confidence is not exactly 1.0; if it is exactly 1.0 the candidate takes
    the place of the accepted item at index [i]. *)
Theorem dedup_step_tie deduplicated item i existing :
  first_overlap item deduplicated O = Some (i, existing) ->
  PrimFloat.eqb (confidence item) (confidence existing) = true ->
  dedup_step deduplicated item =
    if PrimFloat.eqb (confidence item) 1%float
    then <[i := item]> deduplicated
    else deduplicated.
Proof.
  intros Hfirst Heq. unfold dedup_step. rewrite Hfirst.
  by rewrite (float_eqb_not_ltb _ _ Heq), Heq.
Qed.

Lemma dedup_step_tie_witness :
  let accepted := mkSensitiveItem (lit "name") (lit "a") 0 5 nlp_confidence in
  let candidate := mkSensitiveItem (lit "address") (lit "b") 2 7 nlp_confidence in
  dedup_step [accepted] candidate = [accepted].
Proof.
  intros accepted candidate.
  exact (dedup_step_tie [accepted] candidate O accepted eq_refl eq_refl).
Defined.

(** *** Insertion sort *)

Section InsertionSort.
Context {A : Type} (before : A -> A -> bool).

Local Abbreviation inorder := (inorder before).

Lemma elem_of_insert_by x y l : y ∈ insert_by before x l <-> y = x \/ y ∈ l.
Proof.
  induction l as [| z l IH]; simpl.
  - rewrite list_elem_of_singleton, elem_of_nil. tauto.
  - destruct (before z x); rewrite !elem_of_cons; [rewrite IH |]; tauto.
Qed.

Lemma elem_of_sorted_by x l : x ∈ sorted_by before l <-> x ∈ l.
Proof.
  induction l as [| y l IH]; simpl; [done |].
  rewrite elem_of_insert_by, elem_of_cons, IH. tauto.
Qed.

Hypothesis before_asym : forall x y, before x y = true -> before y x = false.
Hypothesis inorder_trans : forall x y z,
  inorder x y -> inorder y z -> inorder x z.

Lemma insert_by_sorted x l :
  StronglySorted inorder l -> StronglySorted inorder (insert_by before x l).
Proof.
  induction 1 as [| z l Hs IH Hz]; simpl.
  - repeat constructor.
  - destruct (before z x) eqn:E.
    + constructor; [done |]. apply Forall_forall. intros y Hy.
      apply elem_of_insert_by in Hy as [-> | Hy].
      * by apply before_asym.
      * by apply (proj1 (Forall_forall _ _) Hz).
    + constructor; [by constructor |].
      constructor; [done |].
      eapply Forall_impl; [exact Hz |].
      intros y Hy. by apply (inorder_trans x z y).
Qed.

Lemma sorted_by_sorted l : StronglySorted inorder (sorted_by before l).
Proof.
  induction l; simpl; [constructor | by apply insert_by_sorted].
Qed.

(** In front of a list of elements that may all follow it, [x] is put
    first. *)
Lemma insert_by_front x l :
  Forall (inorder x) l -> insert_by before x l = x :: l.
Proof.
  destruct 1 as [| y l Hy _]; simpl; [done |]. by rewrite Hy.
Qed.

(** Dropping elements before or after an insertion is the same. *)
Lemma filter_insert_by (p : A -> bool) x l :
  StronglySorted inorder l ->
  List.filter p (insert_by before x l) =
    if p x then insert_by before x (List.filter p l) else List.filter p l.
Proof.
  induction 1 as [| z l Hs IH Hz]; simpl; [done |].
  destruct (before z x) eqn:E; simpl.
  - rewrite IH. destruct (p z), (p x); simpl; by rewrite ?E.
  - destruct (p x); [| done]. symmetry.
    change (if p z then z :: List.filter p l else List.filter p l)
      with (List.filter p (z :: l)).
    apply insert_by_front.
    assert (Forall (inorder x) (z :: l)) as Hall.
    { constructor; [done |]. eapply Forall_impl; [exact Hz |].
      intros y Hy. by apply (inorder_trans x z y). }
    apply Forall_forall. intros y Hy.
    apply (proj1 (Forall_forall _ _) Hall).
    apply list_elem_of_In, filter_In in Hy as [Hy _].
    by apply list_elem_of_In.
Qed.

(** Sorting is stable, so it commutes with dropping elements. *)
Lemma filter_sorted_by (p : A -> bool) l :
  List.filter p (sorted_by before l) = sorted_by before (List.filter p l).
Proof.
  induction l as [| x l IH]; simpl; [done |].
  rewrite filter_insert_by by apply sorted_by_sorted.
  rewrite IH. by destruct (p x).
Qed.

End InsertionSort.

Lemma key_lt_asym a b : key_lt a b = true -> key_lt b a = false.
Proof. unfold key_lt. lia. Qed.

Lemma key_lt_inorder_trans a b c :
  key_lt b a = false -> key_lt c b = false -> key_lt c a = false.
Proof. unfold key_lt. lia. Qed.

Lemma StronglySorted_weaken {A} (R R' : A -> A -> Prop) l :
  (forall x y, R x y -> R' x y) -> StronglySorted R l -> StronglySorted R' l.
Proof.
  intros HR. induction 1 as [| x l Hs IH Hx]; constructor; [done |].
  eapply Forall_impl; [exact Hx | auto].
Qed.

(** Sorting by [(start_pos, end_pos)] sorts by [start_pos]. *)
Lemma sorted_items_by_start items :
  StronglySorted (fun a b => start_pos a <= start_pos b)
                 (sorted_by key_lt items).
Proof.
  eapply StronglySorted_weaken;
    [| apply (sorted_by_sorted key_lt key_lt_asym key_lt_inorder_trans)].
  intros a b. unfold inorder, key_lt. lia.
Qed.

(** *** No overlap in the output *)

Lemma overlap_false a b : overlap a b = false <-> disjoint_spans a b.
Proof. unfold overlap, disjoint_spans. lia. Qed.

Lemma overlap_true a b :
  overlap a b = true <-> end_pos a > start_pos b /\ start_pos a < end_pos b.
Proof. unfold overlap. lia. Qed.

Lemma disjoint_spans_sym a b : disjoint_spans a b -> disjoint_spans b a.
Proof. unfold disjoint_spans. lia. Qed.

Lemma conflict_free_nil : conflict_free [].
Proof. intros i j a b H. by rewrite lookup_nil in H. Qed.

Lemma conflict_free_snoc l item :
  conflict_free l ->
  (forall x, x ∈ l -> disjoint_spans item x) ->
  conflict_free (l ++ [item]).
Proof.
  intros Hl Hitem i j a b Ha Hb Hij.
  apply lookup_snoc_Some in Ha as [[Hi Ha] | [-> <-]];
    apply lookup_snoc_Some in Hb as [[Hj Hb] | [-> <-]].
  - by apply (Hl i j).
  - apply disjoint_spans_sym, Hitem. by eapply list_elem_of_lookup_2.
  - apply Hitem. by eapply list_elem_of_lookup_2.
  - done.
Qed.

(** An item that starts no earlier than two disjoint spans overlaps at most
    one of them: replacing the one it overlaps keeps the list free of
    conflicts. *)
Lemma conflict_free_insert l i item existing :
  conflict_free l ->
  (forall x, x ∈ l -> start_pos x <= start_pos item) ->
  l !! i = Some existing ->
  overlap item existing = true ->
  conflict_free (<[i := item]> l).
Proof.
  intros Hl Hstart Hi Hov j k a b Ha Hb Hjk.
  apply overlap_true in Hov.
  pose proof (Hstart existing (list_elem_of_lookup_2 _ _ _ Hi)) as He.
  apply list_lookup_insert_Some in Ha as [(-> & <- & _) | [Hne Ha]];
    apply list_lookup_insert_Some in Hb as [(-> & <- & _) | [Hne' Hb]].
  - done.
  - pose proof (Hstart b (list_elem_of_lookup_2 _ _ _ Hb)) as Hs.
    pose proof (Hl j k existing b Hi Hb Hjk) as Hd.
    unfold disjoint_spans in *. lia.
  - pose proof (Hstart a (list_elem_of_lookup_2 _ _ _ Ha)) as Hs.
    pose proof (Hl j k a existing Ha Hi Hjk) as Hd.
    unfold disjoint_spans in *. lia.
  - by apply (Hl j k).
Qed.

Lemma elem_of_dedup_step x deduplicated item :
  x ∈ dedup_step deduplicated item -> x ∈ deduplicated \/ x = item.
Proof.
  unfold dedup_step.
  destruct (first_overlap item deduplicated O) as [[i existing] |].
  - assert (x ∈ <[i := item]> deduplicated -> x ∈ deduplicated \/ x = item)
      as Hins.
    { intros Hx. apply list_elem_of_lookup in Hx as [j Hj].
      apply list_lookup_insert_Some in Hj as [(_ & <- & _) | [_ Hj]];
        [by right | left; by eapply list_elem_of_lookup_2]. }
    repeat case_match; auto.
  - rewrite elem_of_app, list_elem_of_singleton. tauto.
Qed.

Lemma dedup_step_conflict_free deduplicated item :
  conflict_free deduplicated ->
  (forall x, x ∈ deduplicated -> start_pos x <= start_pos item) ->
  conflict_free (dedup_step deduplicated item).
Proof.
  intros Hl Hstart. unfold dedup_step.
  destruct (first_overlap item deduplicated O) as [[i existing] |] eqn:E.
  - apply first_overlap_Some in E as (_ & Hi & Hov & _).
    rewrite Nat.sub_0_r in Hi.
    pose proof (conflict_free_insert _ _ _ _ Hl Hstart Hi Hov).
    repeat case_match; auto.
  - apply conflict_free_snoc; [done |].
    intros x Hx. apply overlap_false. by eapply first_overlap_None.
Qed.

Lemma foldl_dedup_step_conflict_free l deduplicated :
  StronglySorted (fun a b => start_pos a <= start_pos b) l ->
  conflict_free deduplicated ->
  (forall x y, x ∈ deduplicated -> y ∈ l -> start_pos x <= start_pos y) ->
  conflict_free (foldl dedup_step deduplicated l).
Proof.
  intros Hs. revert deduplicated.
  induction Hs as [| item l Hs IH Hitem]; intros deduplicated Hl Hstart;
    simpl; [done |].
  apply IH.
  - apply dedup_step_conflict_free; [done |].
    intros x Hx. apply Hstart; [done | by left].
  - intros x y Hx Hy. apply elem_of_dedup_step in Hx as [Hx | ->].
    + apply Hstart; [done | by right].
    + by apply (proj1 (Forall_forall _ _) Hitem).
Qed.

(** C1: the output of [_deduplicate] has no two items, at different indices,
    whose intervals overlap: of any two, one ends where the other starts or
    before. *)
Theorem deduplicate_conflict_free items i j a b :
  _deduplicate items !! i = Some a ->
  _deduplicate items !! j = Some b ->
  i <> j ->
  end_pos a <= start_pos b \/ start_pos a >= end_pos b.
Proof.
  assert (conflict_free (_deduplicate items)) as H; [| exact (H i j a b)].
  unfold _deduplicate. destruct items as [| item items];
    [apply conflict_free_nil |].
  apply foldl_dedup_step_conflict_free.
  - apply sorted_items_by_start.
  - apply conflict_free_nil.
  - intros x y Hx. by apply elem_of_nil in Hx.
Qed.

Lemma deduplicate_conflict_free_witness :
  let n := mkSensitiveItem (lit "name") (lit "abcde") 0 5 nlp_confidence in
  let p := mkSensitiveItem (lit "phone") (lit "cdefg") 2 7 1%float in
  let e := mkSensitiveItem (lit "email") (lit "hi") 7 9 1%float in
  _deduplicate [e; n; p] = [p; e]
  /\ (end_pos p <= start_pos e \/ start_pos p >= end_pos e).
Proof.
  intros n p e. split; [reflexivity |].
  apply (deduplicate_conflict_free [e; n; p] 0 1 p e);
    [reflexivity | reflexivity | discriminate].
Defined.

(** ** The pattern scan *)

Lemma try_down_Some f base d n :
  try_down f base d = Some n -> exists k, (base <= k)%nat /\ f k = Some n.
Proof.
  induction d as [| d IH]; simpl.
  - intros H. exists base. split; [lia | done].
  - destruct (f (base + S d)%nat) eqn:E.
    + intros [= <-]. exists (base + S d)%nat. split; [lia | done].
    + done.
Qed.

Lemma try_up_Some f lo d n :
  try_up f lo d = Some n -> exists k, (lo <= k)%nat /\ f k = Some n.
Proof.
  revert lo. induction d as [| d IH]; intros lo; simpl.
  - destruct (f lo) eqn:E; [| done].
    intros [= <-]. exists lo. split; [lia | done].
  - destruct (f lo) eqn:E.
    + intros [= <-]. exists lo. split; [lia | done].
    + intros H. apply IH in H as (k & Hk & Hf). exists k. split; [lia | done].
Qed.

(** A match takes at least the characters its atoms require. *)
Lemma match_here_min_len r s n :
  match_here r s = Some n -> (min_len r <= n)%nat.
Proof.
  revert s n. induction r as [| a r IH]; intros s n; simpl.
  - intros [= <-]. lia.
  - destruct (run (cls a) (rmax a) s <? rmin a)%nat; [done |].
    intros H.
    assert (exists k, (rmin a <= k)%nat
              /\ option_map (Nat.add k) (match_here r (drop k s)) = Some n)
      as (k & Hk & Hm).
    { destruct (greedy a);
        [apply try_down_Some in H | apply try_up_Some in H]; exact H. }
    destruct (match_here r (drop k s)) as [m |] eqn:E; [| done].
    injection Hm as <-. apply IH in E. lia.
Qed.

(** The matches of a scan lie at or after its start, and each is at least
    [min_len r] long. *)
Lemma finditer_from_bounds r s pos skip start end_ :
  (start, end_) ∈ finditer_from r s pos skip ->
  pos <= start /\ start + Z.of_nat (min_len r) <= end_.
Proof.
  revert pos skip. induction s as [| c s IH]; intros pos skip; simpl.
  - intros H. by apply elem_of_nil in H.
  - destruct skip as [| k].
    + destruct (match_here r (c :: s)) as [n |] eqn:E.
      * intros H. apply elem_of_cons in H as [[= -> ->] | H].
        -- apply match_here_min_len in E. lia.
        -- apply IH in H. lia.
      * intros H. apply IH in H. lia.
    + intros H. apply IH in H. lia.
Qed.

Lemma finditer_nonempty r text start end_ :
  (1 <= min_len r)%nat -> (start, end_) ∈ finditer r text -> start < end_.
Proof.
  intros Hr H. apply finditer_from_bounds in H. lia.
Qed.

(** None of the four patterns matches the empty string. *)
Lemma REGEX_PATTERNS_nonempty unicode_decimal :
  Forall (fun p => (1 <= min_len p.2)%nat) (REGEX_PATTERNS unicode_decimal).
Proof. unfold REGEX_PATTERNS. repeat constructor; simpl; lia. Qed.

(** A loop whose body never raises on the elements it meets, and keeps an
    invariant, returns with the invariant. *)
Lemma foldM_invariant {A B} (f : B -> A -> result B) (I : B -> Prop)
    (P : A -> Prop) l b :
  (forall b x, I b -> P x -> exists b', f b x = Ok b' /\ I b') ->
  Forall P l -> I b -> exists b', foldM f b l = Ok b' /\ I b'.
Proof.
  intros Hf Hl. revert b. induction Hl as [| x l Hx Hl IH]; intros b Hb; simpl.
  - by exists b.
  - destruct (Hf b x Hb Hx) as (b' & -> & Hb'). simpl. by apply IH.
Qed.

Lemma elem_of_claim (mp : gset Z) l pos :
  pos ∈ foldl (fun mp pos => {[pos]} ∪ mp) mp l <-> pos ∈ mp \/ pos ∈ l.
Proof.
  revert mp. induction l as [| x l IH]; intros mp; simpl.
  - rewrite elem_of_nil. tauto.
  - rewrite IH, elem_of_cons, elem_of_union, elem_of_singleton. tauto.
Qed.

Lemma elem_of_py_range start end_ pos :
  pos ∈ py_range start end_ <-> start <= pos < end_.
Proof. unfold py_range. rewrite elem_of_seqZ. lia. Qed.

Lemma existsb_false {A} (f : A -> bool) l :
  existsb f l = false <-> forall x, x ∈ l -> f x = false.
Proof.
  induction l as [| y l IH]; simpl.
  - split; [| done]. intros _ x Hx. by apply elem_of_nil in Hx.
  - rewrite orb_false_iff, IH. split.
    + intros [Hy Hl] x Hx. apply elem_of_cons in Hx as [-> | Hx]; auto.
    + intros H. split; [apply H; by left |]. intros x Hx. apply H. by right.
Qed.

(** One match of the scan: on a non-empty match the body does not raise and
    keeps the emitted items claimed and free of conflicts. *)
Lemma regex_match_step_invariant data_type text st m :
  claimed st /\ conflict_free st.1 ->
  m.1 < m.2 ->
  exists st', regex_match_step data_type text st m = Ok st'
              /\ (claimed st' /\ conflict_free st'.1).
Proof.
  destruct st as [items mp], m as [start end_]. simpl.
  intros [Hc Hf] Hm.
  destruct (existsb _ (py_range start end_)) eqn:E; [by exists (items, mp) |].
  rewrite SensitiveItem_init_ok by lia. simpl.
  eexists. split; [reflexivity |].
  pose proof (proj1 (existsb_false _ _) E) as Hfree. split.
  - intros item Hitem. simpl in *.
    apply elem_of_app in Hitem as [Hitem | Hitem].
    + destruct (Hc item Hitem) as [Hne Hpos]. split; [done |].
      intros pos Hp. apply elem_of_claim. left. by apply Hpos.
    + apply list_elem_of_singleton in Hitem as ->. simpl. split; [done |].
      intros pos Hp. apply elem_of_claim. right. by apply elem_of_py_range.
  - simpl. apply conflict_free_snoc; [done |].
    intros x Hx. destruct (Hc x Hx) as [Hne Hpos]. simpl in Hpos.
    unfold disjoint_spans. simpl.
    destruct (Z_le_gt_dec end_ (start_pos x)) as [| Hgt]; [by left |].
    destruct (Z_le_gt_dec (end_pos x) start) as [| Hgt']; [right; lia |].
    exfalso.
    assert (Z.max start (start_pos x) ∈ mp) as Hin by (apply Hpos; lia).
    specialize (Hfree (Z.max start (start_pos x))).
    rewrite elem_of_py_range in Hfree.
    apply bool_decide_eq_false in Hfree; [done | lia].
Qed.

(** The two loops of the scan return, with every emitted item claimed and no
    two of them overlapping. *)
Lemma regex_recognition_loops unicode_decimal text :
  exists st,
    foldM (fun st '(data_type, pattern) =>
             foldM (regex_match_step data_type text) st
                   (finditer pattern text))
          ([], ∅) (REGEX_PATTERNS unicode_decimal) = Ok st
    /\ claimed st /\ conflict_free st.1.
Proof.
  apply (foldM_invariant _ (fun st => claimed st /\ conflict_free st.1)
                         (fun p => (1 <= min_len p.2)%nat)).
  - intros st [data_type pattern] Hst Hp. simpl in Hp.
    apply (foldM_invariant _ _ (fun m => m.1 < m.2)); [| | done].
    + intros b m. apply regex_match_step_invariant.
    + apply Forall_forall. intros [start end_] Hm. simpl.
      by eapply finditer_nonempty.
  - apply REGEX_PATTERNS_nonempty.
  - split; [| apply conflict_free_nil].
    intros item Hitem. by apply elem_of_nil in Hitem.
Qed.

(** C7: for every text (and whatever the decimal digits of the Unicode
    database are), the pattern scan returns a list of spans of which no two
    overlap; each span is non-empty, so no position is emitted twice. *)
Theorem regex_recognition_conflict_free unicode_decimal text :
  exists items,
    _regex_recognition unicode_decimal text = Ok items
    /\ Forall (fun item => start_pos item < end_pos item) items
    /\ conflict_free items.
Proof.
  destruct (regex_recognition_loops unicode_decimal text)
    as (st & Hloops & Hclaimed & Hfree).
  exists st.1. unfold _regex_recognition. rewrite Hloops. simpl.
  split; [done |]. split; [| done].
  apply Forall_forall. intros item Hitem.
  by destruct (Hclaimed item Hitem).
Qed.

(** An 18-digit run is emitted once, as an ID card, and not as a bank card. *)
Example regex_recognition_id_card :
  _regex_recognition ascii_digit (lit "no 110101199001011234.")
  = Ok [mkSensitiveItem (lit "id_card") (lit "110101199001011234") 3 21
                        1%float].
Proof. vm_compute. reflexivity. Qed.

(** ** The entry point *)

(** With [use_nlp] true and a backend that cannot be loaded, the error
    reaches the caller. *)
Lemma identify_backend_unavailable unicode_decimal text :
  identify_sensitive_data unicode_decimal (Raise RecognitionError) text true
  = Raise RecognitionError.
Proof.
  destruct (regex_recognition_loops unicode_decimal text) as (st & H & _).
  unfold identify_sensitive_data, _regex_recognition. by rewrite H.
Qed.

(** A failure of the loaded pipeline is swallowed: the pattern scan alone
    decides the result. *)
Lemma identify_backend_crash unicode_decimal text :
  identify_sensitive_data unicode_decimal
    (Ok (fun _ => Raise OtherException)) text true
  = identify_sensitive_data unicode_decimal (Raise RecognitionError) text false.
Proof.
  destruct (regex_recognition_loops unicode_decimal text) as (st & H & _).
  unfold identify_sensitive_data, _regex_recognition. by rewrite H.
Qed.

(** C8: with [use_nlp] false, [identify_sensitive_data] returns the
    deduplicated items of the pattern scan, whatever the state of the NLP
    backend: no [RecognitionError], and no other exception, is raised. *)
Theorem identify_without_nlp unicode_decimal load_nlp_model text :
  exists regex_items,
    _regex_recognition unicode_decimal text = Ok regex_items
    /\ identify_sensitive_data unicode_decimal load_nlp_model text false
       = Ok (_deduplicate regex_items).
Proof.
  destruct (regex_recognition_loops unicode_decimal text) as (st & H & _).
  assert (_regex_recognition unicode_decimal text = Ok st.1) as Hscan
    by (unfold _regex_recognition; by rewrite H).
  exists st.1. split; [done |].
  unfold identify_sensitive_data. by rewrite Hscan.
Qed.

(** ** The processor *)

(** The resolver returns enabled rules of the category asked for. *)
Lemma find_rule_Some ty rules rule :
  _find_rule ty rules = Some rule -> data_type rule = ty /\ enabled rule = true.
Proof.
  induction rules as [| r rules IH]; simpl; [done |].
  destruct (str_eqb (data_type r) ty && enabled r) eqn:E; [| done].
  intros [= <-]. apply andb_true_iff in E as [E1 E2].
  by apply str_eqb_true in E1.
Qed.

Lemma sort_reverse_singleton item : sort_reverse [item] = [item].
Proof. reflexivity. Qed.

(** C9: with one span and, as the only rule, a rule of the span's category
    that is disabled, [process] returns the text unchanged. *)
Theorem process_disabled_rule text item rule :
  data_type rule = type item ->
  enabled rule = false ->
  process text [item] [rule] = text.
Proof.
  intros Hty Hen. unfold process.
  destruct (is_empty text || is_empty [item]); [done |].
  rewrite sort_reverse_singleton. unfold process_loop, process_item. simpl.
  by rewrite Hen, andb_false_r.
Qed.

Lemma process_disabled_rule_witness :
  let text := lit "call 13812345678 now" in
  let item := mkSensitiveItem (lit "phone") (lit "13812345678") 5 16 1%float in
  let rule := mkRule (lit "rule1") (lit "phones") (lit "phone") (lit "mask")
                     false in
  process text [item] [rule] = text.
Proof.
  intros text item rule.
  exact (process_disabled_rule text item rule eq_refl eq_refl).
Defined.

(** *** Consistency *)

(** The cache only grows, and holds every replacement produced. *)
Lemma process_item_cache rules result value_mapping item st' new_value :
  process_item rules (result, value_mapping) item = (st', new_value) ->
  value_mapping ⊆ st'.2
  /\ forall v, new_value = Some v -> st'.2 !! cache_key item = Some v.
Proof.
  unfold process_item.
  assert (forall st'' (nv : option (list N)),
            (result, value_mapping, None) = (st'', nv) ->
            value_mapping ⊆ st''.2
            /\ forall v, nv = Some v -> st''.2 !! cache_key item = Some v)
    as Hskip by (by intros st'' nv [= <- <-]).
  destruct (_find_rule (type item) rules) as [rule |]; [| by apply Hskip].
  destruct (enabled rule); [| by apply Hskip].
  destruct (strategies !! strategy rule) as [s |]; [| by apply Hskip].
  destruct (value_mapping !! cache_key item) as [cached |] eqn:E.
  - intros [= <- <-]. simpl. split; [done |]. by intros v [= <-].
  - intros [= <- <-]. simpl. split.
    + by apply insert_subseteq.
    + intros v [= <-]. apply lookup_insert_eq.
Qed.

Lemma process_loop_cache rules items result value_mapping st' log :
  process_loop rules (result, value_mapping) items = (st', log) ->
  value_mapping ⊆ st'.2
  /\ forall item v, (item, v) ∈ log -> st'.2 !! cache_key item = Some v.
Proof.
  revert result value_mapping st' log.
  induction items as [| item items IH]; intros result value_mapping st' log;
    cbn [process_loop].
  - intros [= <- <-]. split; [done |]. intros item v H.
    by apply elem_of_nil in H.
  - destruct (process_item rules (result, value_mapping) item)
      as [[result1 mapping1] new_value] eqn:E1.
    destruct (process_loop rules (result1, mapping1) items)
      as [st2 log2] eqn:E2.
    intros [= <- <-].
    apply process_item_cache in E1 as [Hsub1 Hnew]. simpl in *.
    apply IH in E2 as [Hsub2 Hlog]. split; [by etrans |].
    intros it v Hin. destruct new_value as [w |]; [| by apply Hlog].
    apply elem_of_cons in Hin as [[= -> ->] | Hin]; [| by apply Hlog].
    eapply lookup_weaken; [by apply Hnew | done].
Qed.

(** C2: within one call of [process], two spans of the same category and the
    same value get the same replacement. *)
Theorem process_consistent text items rules a ra b rb :
  (a, ra) ∈ replacements text items rules ->
  (b, rb) ∈ replacements text items rules ->
  type a = type b ->
  value a = value b ->
  ra = rb.
Proof.
  unfold replacements. intros Ha Hb Hty Hv.
  destruct (is_empty text || is_empty items); [by apply elem_of_nil in Ha |].
  destruct (process_loop rules (text, ∅) (sort_reverse items))
    as [st' log] eqn:E.
  apply process_loop_cache in E as [_ Hlog]. simpl in *.
  apply Hlog in Ha, Hb.
  assert (cache_key a = cache_key b) as Hk
    by (unfold cache_key; by rewrite Hty, Hv).
  rewrite Hk in Ha. congruence.
Qed.

Lemma process_consistent_witness :
  let text := lit "13812345678 or 13812345678" in
  let first := mkSensitiveItem (lit "phone") (lit "13812345678") 0 11 1%float in
  let second :=
    mkSensitiveItem (lit "phone") (lit "13812345678") 15 26 1%float in
  let rule := mkRule (lit "rule1") (lit "phones") (lit "phone") (lit "mask")
                     true in
  let masked := lit "138****5678" in
  (first, masked) ∈ replacements text [first; second] [rule]
  /\ (second, masked) ∈ replacements text [first; second] [rule]
  /\ masked = masked.
Proof.
  intros text first second rule masked.
  assert ((first, masked) ∈ replacements text [first; second] [rule]) as Hf
    by (vm_compute; apply list_elem_of_further, list_elem_of_here).
  assert ((second, masked) ∈ replacements text [first; second] [rule]) as Hs
    by (vm_compute; apply list_elem_of_here).
  split; [exact Hf |]. split; [exact Hs |].
  exact (process_consistent text [first; second] [rule]
           first masked second masked Hf Hs eq_refl eq_refl).
Defined.

(** *** Unknown strategy names *)

Lemma strategies_lookup_unknown name :
  known_strategy name = false -> strategies !! name = None.
Proof.
  unfold known_strategy. intros H. apply bool_decide_eq_false in H.
  rewrite !not_elem_of_cons in H. destruct H as (H1 & H2 & H3 & _).
  unfold strategies. simpl.
  rewrite !lookup_insert_ne by done. apply lookup_empty.
Qed.

(** The loop body does nothing for an item whose rule names an unknown
    strategy: the text and the cache stay as they are. *)
Lemma process_item_unknown rules st item :
  unknown_strategy rules item = true ->
  process_item rules st item = (st, None).
Proof.
  unfold unknown_strategy, process_item. destruct st as [result value_mapping].
  destruct (_find_rule (type item) rules) as [rule |]; [| done].
  intros H. apply negb_true_iff, strategies_lookup_unknown in H.
  rewrite H. by destruct (enabled rule).
Qed.

Lemma process_loop_skip_unknown rules items st :
  process_loop rules st items =
  process_loop rules st
    (List.filter (fun item => negb (unknown_strategy rules item)) items).
Proof.
  revert st. induction items as [| item items IH]; intros st; [done |].
  cbn [List.filter process_loop].
  destruct (unknown_strategy rules item) eqn:E; cbn [negb process_loop].
  - rewrite (process_item_unknown _ _ _ E), <- IH.
    by destruct (process_loop rules st items).
  - destruct (process_item rules st item) as [st' new_value].
    by rewrite <- IH.
Qed.

Lemma sort_reverse_filter (p : SensitiveItem -> bool) items :
  List.filter p (sort_reverse items) = sort_reverse (List.filter p items).
Proof.
  apply filter_sorted_by.
  - intros x y. lia.
  - intros x y z. unfold inorder. lia.
Qed.

(** C10: an item whose enabled rule names a strategy other than [mask],
    [replace] and [delete] is skipped without an error: [process] returns
    what it returns without the item, so the item changes nothing of the
    text. *)
Theorem process_unknown_strategy text items rules :
  process text items rules =
  process text
    (List.filter (fun item => negb (unknown_strategy rules item)) items) rules.
Proof.
  unfold process. destruct (is_empty text) eqn:Et; [done |]. simpl.
  rewrite <- sort_reverse_filter, <- process_loop_skip_unknown.
  destruct (is_empty items) eqn:Ei; [by destruct items |].
  destruct (is_empty (List.filter _ items)) eqn:Ef; [| done].
  rewrite process_loop_skip_unknown, sort_reverse_filter.
  by destruct (List.filter _ items).
Qed.

(** With a single such span the text comes back unchanged. *)
Lemma process_single_unknown text item rules :
  unknown_strategy rules item = true -> process text [item] rules = text.
Proof.
  intros H. unfold process.
  destruct (is_empty text || is_empty [item]); [done |].
  rewrite sort_reverse_singleton. cbn [process_loop].
  by rewrite (process_item_unknown _ _ _ H).
Qed.

Example process_single_unknown_example :
  let text := lit "call 13812345678 now" in
  let item := mkSensitiveItem (lit "phone") (lit "13812345678") 5 16 1%float in
  let rule := mkRule (lit "rule1") (lit "phones") (lit "phone")
                     (lit "encrypt") true in
  process text [item] [rule] = text.
Proof. vm_compute. reflexivity. Qed.

(** *** What the output still shows *)


(** Two more ways the value stays in the output, which the conditions of
    [process_hides_value] exclude: deleting [ab] from [aabb] joins its
    neighbours to [ab] again, and an occurrence no span covers is copied. *)
Example process_delete_joins :
  let item := mkSensitiveItem (lit "name") (lit "ab") 1 3 nlp_confidence in
  let rule := mkRule (lit "rule1") (lit "names") (lit "name") (lit "delete")
                     true in
  process (lit "aabb") [item] [rule] = lit "ab".
Proof. vm_compute. reflexivity. Qed.

Example process_uncovered_occurrence :
  let item := mkSensitiveItem (lit "phone") (lit "13812345678") 0 11 1%float in
  let rule := mkRule (lit "rule1") (lit "phones") (lit "phone") (lit "mask")
                     true in
  process (lit "13812345678 13812345678") [item] [rule]
  = lit "138****5678 13812345678".
Proof. vm_compute. reflexivity. Qed.

Lemma mask_apply_id_card value :
  18 <= len value ->
  mask_apply value (lit "id_card")
  = slice_to value 6 ++ stars 8 ++ slice_from value (-4).
Proof.
  intros H. unfold mask_apply. rewrite str_eqb_nil by lia.
  change (str_eqb (lit "id_card") (lit "name")) with false.
  change (str_eqb (lit "id_card") (lit "id_card")) with true. cbv iota.
  destruct (len value <? 18) eqn:E; [lia | done].
Qed.

Lemma mask_apply_phone value :
  11 <= len value ->
  mask_apply value (lit "phone")
  = slice_to value 3 ++ lit "****" ++ slice_from value (-4).
Proof.
  intros H. unfold mask_apply. rewrite str_eqb_nil by lia.
  change (str_eqb (lit "phone") (lit "name")) with false.
  change (str_eqb (lit "phone") (lit "id_card")) with false.
  change (str_eqb (lit "phone") (lit "phone")) with true. cbv iota.
  destruct (len value <? 11) eqn:E; [lia | done].
Qed.

Lemma mask_apply_bank_card value :
  8 <= len value ->
  mask_apply value (lit "bank_card")
  = slice_to value 4 ++ stars (len value - 8) ++ slice_from value (-4).
Proof.
  intros H. unfold mask_apply. rewrite str_eqb_nil by lia.
  change (str_eqb (lit "bank_card") (lit "name")) with false.
  change (str_eqb (lit "bank_card") (lit "id_card")) with false.
  change (str_eqb (lit "bank_card") (lit "phone")) with false.
  change (str_eqb (lit "bank_card") (lit "address")) with false.
  change (str_eqb (lit "bank_card") (lit "bank_card")) with true. cbv iota.
  destruct (len value <? 8) eqn:E; [lia | done].
Qed.

Lemma slice_to_app (a b : list N) : slice_to (a ++ b) (len a) = a.
Proof.
  unfold slice_to, slice_bound. rewrite len_app.
  pose proof (len_nonneg a). pose proof (len_nonneg b).
  destruct (len a <? 0) eqn:E; [lia |].
  replace (Z.to_nat (Z.min (len a) (len a + len b))) with (length a)
    by (unfold len in *; lia).
  apply take_app_length.
Qed.

Lemma slice_from_app (a b : list N) : slice_from (a ++ b) (len a) = b.
Proof.
  unfold slice_from, slice_bound. rewrite len_app.
  pose proof (len_nonneg a). pose proof (len_nonneg b).
  destruct (len a <? 0) eqn:E; [lia |].
  replace (Z.to_nat (Z.min (len a) (len a + len b))) with (length a)
    by (unfold len in *; lia).
  apply drop_app_length.
Qed.

Lemma is_empty_false {A} (l : list A) : (0 < length l)%nat -> is_empty l = false.
Proof. destruct l; simpl; [lia | done]. Qed.

(** One span that covers [value] between [before] and [after], with a known
    strategy: the value is replaced by what the strategy gives. *)
Lemma process_single before v after ty c rules rule s :
  1 <= len v ->
  _find_rule ty rules = Some rule ->
  strategies !! strategy rule = Some s ->
  process (before ++ v ++ after)
          [mkSensitiveItem ty v (len before) (len before + len v) c]
          rules
  = before ++ apply s v ty ++ after.
Proof.
  intros Hv Hrule Hs. unfold process.
  rewrite is_empty_false
    by (rewrite !length_app; unfold len in Hv; lia).
  cbn [orb is_empty]. rewrite sort_reverse_singleton.
  cbn [process_loop]. unfold process_item. cbn [type value start_pos end_pos].
  rewrite Hrule. destruct (find_rule_Some _ _ _ Hrule) as [_ ->].
  rewrite Hs, lookup_empty. cbn [fst snd].
  rewrite slice_to_app. f_equal. f_equal.
  rewrite <- len_app, app_assoc. apply slice_from_app.
Qed.







(** ** The scenarios of the documentation *)

(** [张三的手机号是13812345678]: one phone, masked to [138****5678]. *)
Example scenario_phone :
  let text :=
    [24352; 19977; 30340; 25163; 26426; 21495; 26159]%N ++ lit "13812345678" in
  let rule := mkRule (lit "rule1") (lit "phones") (lit "phone") (lit "mask")
                     true in
  let found := mkSensitiveItem (lit "phone") (lit "13812345678") 7 18 1%float in
  identify_sensitive_data ascii_digit (Raise RecognitionError) text false
  = Ok [found]
  /\ process text [found] [rule]
     = [24352; 19977; 30340; 25163; 26426; 21495; 26159]%N
         ++ lit "138****5678".
Proof. vm_compute. auto. Qed.

(** The same ID card twice: both occurrences masked alike. *)
Example scenario_id_card_twice :
  let text := lit "110101199001011234 / 110101199001011234" in
  let rule := mkRule (lit "rule2") (lit "ids") (lit "id_card") (lit "mask")
                     true in
  match _regex_recognition ascii_digit text with
  | Ok items =>
      length items = 2%nat
      /\ process text items [rule]
         = lit "110101********1234 / 110101********1234"
  | Raise _ => False
  end.
Proof. vm_compute. auto. Qed.

Example scenario_email :
  mask_apply (lit "john.doe@example.com") (lit "email")
  = lit "j***@example.com".
Proof. vm_compute. reflexivity. Qed.

(** [北京市朝阳区XX路10号] keeps [北京市朝阳区]. *)
Example scenario_address :
  mask_apply ([21271; 20140; 24066; 26397; 38451; 21306]%N ++ lit "XX"
                ++ [36335]%N ++ lit "10" ++ [21495]%N) (lit "address")
  = [21271; 20140; 24066; 26397; 38451; 21306]%N ++ lit "******".
Proof. vm_compute. reflexivity. Qed.

(** * Further properties *)

(** ** More on masking *)

Lemma char_at_head c (s : list N) : char_at (c :: s) 0 = [c].
Proof.
  unfold char_at. change (0 <? 0) with false. cbv iota zeta.
  change (0 <=? 0) with true. rewrite andb_true_l.
  destruct (0 <? len (c :: s)) eqn:E; [done |].
  exfalso. apply Z.ltb_ge in E. unfold len in E. cbn [length] in E.
  rewrite Nat2Z.inj_succ in E. pose proof (Zle_0_nat (length s)). lia.
Qed.

Lemma len_char_at_head (s : list N) : 1 <= len s -> len (char_at s 0) = 1.
Proof.
  destruct s as [| c s]; [unfold len; simpl; lia |].
  intros _. by rewrite char_at_head.
Qed.

Lemma len_char_at_last (s : list N) : 1 <= len s -> len (char_at s (-1)) = 1.
Proof.
  intros H. unfold char_at.
  destruct (-1 <? 0) eqn:E0; [| lia].
  destruct ((0 <=? len s + -1) && (len s + -1 <? len s)) eqn:E; [| lia].
  unfold len in *. rewrite length_take, length_drop. lia.
Qed.

Lemma str_eqb_false (a b : list N) : a <> b -> str_eqb a b = false.
Proof. intros H. unfold str_eqb. by apply bool_decide_eq_false. Qed.

(** X1: Mask keeps the length of the value for every category other than
    [id_card], [phone], [address] and [email]: for [name], for [bank_card]
    and for every category the strategy does not know. *)
Theorem mask_apply_keeps_length (value ty : list N) :
  ty ∉ [lit "id_card"; lit "phone"; lit "address"; lit "email"] ->
  len (mask_apply value ty) = len value.
Proof.
  intros Hty. rewrite !not_elem_of_cons in Hty.
  destruct Hty as (Hid & Hphone & Haddress & Hemail & _).
  unfold mask_apply.
  destruct (str_eqb value []) eqn:Ev; [done |].
  assert (1 <= len value) as Hlen.
  { destruct value; [done | unfold len; simpl; lia]. }
  rewrite (str_eqb_false _ _ Hid), (str_eqb_false _ _ Hphone),
    (str_eqb_false _ _ Haddress), (str_eqb_false _ _ Hemail).
  destruct (str_eqb ty (lit "name")).
  - destruct (len value <=? 1) eqn:E; [done |].
    rewrite len_app, len_stars, len_char_at_head by lia. lia.
  - destruct (str_eqb ty (lit "bank_card")).
    + destruct (len value <? 8) eqn:E; [done |].
      rewrite !len_app, len_slice_to, len_slice_from, len_stars.
      unfold slice_bound. simpl. lia.
    + destruct (len value <=? 2) eqn:E.
      * rewrite len_stars. lia.
      * rewrite !len_app, len_stars, len_char_at_head, len_char_at_last
          by lia. lia.
Qed.

Lemma mask_apply_keeps_length_witness :
  len (mask_apply [24352; 19977; 20016]%N (lit "name")) = 3
  /\ len (mask_apply (lit "abcdef") (lit "passport")) = 6.
Proof.
  split.
  - apply (mask_apply_keeps_length [24352; 19977; 20016]%N (lit "name")).
    vm_compute. intros H. repeat (apply elem_of_cons in H as [H | H];
      [discriminate |]). by apply elem_of_nil in H.
  - apply (mask_apply_keeps_length (lit "abcdef") (lit "passport")).
    vm_compute. intros H. repeat (apply elem_of_cons in H as [H | H];
      [discriminate |]). by apply elem_of_nil in H.
Defined.

Lemma slice_to_prefix (a b : list N) k : len a = k -> slice_to (a ++ b) k = a.
Proof. intros <-. apply slice_to_app. Qed.

(** [(x + t)[-k:]] is [t] when [t] has [k] characters. *)
Lemma slice_from_suffix (x t : list N) k :
  len t = k -> 0 < k -> slice_from (x ++ t) (- k) = t.
Proof.
  intros Ht Hk. unfold slice_from, slice_bound. rewrite len_app.
  pose proof (len_nonneg x).
  destruct (- k <? 0) eqn:E; [| lia].
  replace (Z.to_nat (Z.max 0 (len x + len t + - k))) with (length x)
    by (unfold len in *; lia).
  apply drop_app_length.
Qed.

Lemma len_slice_to_le (s : list N) k :
  0 <= k <= len s -> len (slice_to s k) = k.
Proof.
  intros H. rewrite len_slice_to. unfold slice_bound.
  destruct (k <? 0) eqn:E; lia.
Qed.

Lemma len_slice_from_neg (s : list N) k :
  0 < k <= len s -> len (slice_from s (- k)) = k.
Proof.
  intros H. rewrite len_slice_from. unfold slice_bound.
  destruct (- k <? 0) eqn:E; lia.
Qed.

(** The shape [head + middle + tail] keeps its head and its tail under the
    slices that cut them out. *)
Lemma ends_of_masked (value middle : list N) h :
  0 <= h -> h + 4 <= len value ->
  let masked := slice_to value h ++ middle ++ slice_from value (-4) in
  slice_to masked h = slice_to value h
  /\ slice_from masked (-4) = slice_from value (-4).
Proof.
  intros Hh Hlen masked. split.
  - apply slice_to_prefix, len_slice_to_le. lia.
  - unfold masked. rewrite app_assoc.
    apply (slice_from_suffix _ _ 4); [| lia].
    apply (len_slice_from_neg value 4). lia.
Qed.

(** X2: on a value that meets the minimum, Mask keeps the first 6 and the
    last 4 characters of an [id_card], the first 3 and the last 4 of a
    [phone], the first 4 and the last 4 of a [bank_card]. *)
Theorem mask_apply_keeps_ends (value : list N) :
  (18 <= len value ->
   slice_to (mask_apply value (lit "id_card")) 6 = slice_to value 6
   /\ slice_from (mask_apply value (lit "id_card")) (-4)
      = slice_from value (-4))
  /\ (11 <= len value ->
      slice_to (mask_apply value (lit "phone")) 3 = slice_to value 3
      /\ slice_from (mask_apply value (lit "phone")) (-4)
         = slice_from value (-4))
  /\ (8 <= len value ->
      slice_to (mask_apply value (lit "bank_card")) 4 = slice_to value 4
      /\ slice_from (mask_apply value (lit "bank_card")) (-4)
         = slice_from value (-4)).
Proof.
  split; [| split]; intros H.
  - rewrite mask_apply_id_card by done. apply ends_of_masked; lia.
  - rewrite mask_apply_phone by done. apply ends_of_masked; lia.
  - rewrite mask_apply_bank_card by done. apply ends_of_masked; lia.
Qed.

Lemma mask_apply_keeps_ends_witness :
  slice_to (mask_apply (lit "110101199001011234") (lit "id_card")) 6
  = lit "110101"
  /\ slice_from (mask_apply (lit "13812345678") (lit "phone")) (-4)
     = lit "5678"
  /\ slice_to (mask_apply (lit "6222021234567890") (lit "bank_card")) 4
     = lit "6222".
Proof.
  split; [| split].
  - apply (proj1 (proj1 (mask_apply_keeps_ends (lit "110101199001011234"))
                    ltac:(vm_compute; discriminate))).
  - apply (proj2 (proj1 (proj2 (mask_apply_keeps_ends (lit "13812345678")))
                    ltac:(vm_compute; discriminate))).
  - apply (proj1 (proj2 (proj2 (mask_apply_keeps_ends
                                  (lit "6222021234567890")))
                    ltac:(vm_compute; discriminate))).
Defined.

(** *** E-mail addresses *)

Lemma contains_char_app c (a b : list N) :
  contains_char c (a ++ b) = contains_char c a || contains_char c b.
Proof. unfold contains_char. apply existsb_app. Qed.

(** [split] cuts at the first occurrence: the part before it is free of the
    separator. *)
Lemma split_first_spec c (s : list N) :
  contains_char c s = true ->
  s = (split_first c s).1 ++ c :: (split_first c s).2
  /\ contains_char c (split_first c s).1 = false.
Proof.
  induction s as [| x s IH]; simpl; [done |].
  destruct (N.eqb_spec x c) as [-> | Hne].
  - intros _. simpl. done.
  - assert (N.eqb c x = false) as -> by (apply N.eqb_neq; congruence).
    simpl. intros H. destruct (IH H) as [Hs Hfree].
    destruct (split_first c s) as [a b]. simpl in *.
    assert (N.eqb c x = false) as -> by (apply N.eqb_neq; congruence).
    split; [by f_equal | done].
Qed.

Lemma split_first_app c (a b : list N) :
  contains_char c a = false -> split_first c (a ++ c :: b) = (a, b).
Proof.
  induction a as [| x a IH]; simpl.
  - intros _. by rewrite N.eqb_refl.
  - intros H. apply orb_false_iff in H as [Hx Ha].
    assert (N.eqb x c = false) as ->
      by (apply N.eqb_neq; apply N.eqb_neq in Hx; congruence).
    by rewrite (IH Ha).
Qed.

(** The masked local part: one ['*'], or the first character and ["***"];
    no ['@'] in it. *)
Lemma masked_username_spec (username : list N) :
  contains_char 64 username = false ->
  let masked := if len username <=? 1 then lit "*"
                else char_at username 0 ++ lit "***" in
  contains_char 64 masked = false
  /\ (if len masked <=? 1 then lit "*" else char_at masked 0 ++ lit "***")
     = masked.
Proof.
  intros Hfree masked. unfold masked.
  destruct (len username <=? 1) eqn:E; [done |].
  destruct username as [| c username]; [done |].
  rewrite char_at_head. simpl in Hfree.
  apply orb_false_iff in Hfree as [Hc _].
  split.
  - simpl. by rewrite Hc.
  - change ([c] ++ lit "***") with (c :: lit "***"). by rewrite char_at_head.
Qed.

Lemma mask_apply_email (value : list N) :
  mask_apply value (lit "email") = _mask_email value.
Proof.
  unfold mask_apply. destruct (str_eqb value []) eqn:E; [| done].
  apply str_eqb_true in E. by subst.
Qed.

(** What [_mask_email] gives for an address with an ['@']. *)
Lemma mask_email_shape (email : list N) :
  contains_char 64 email = true ->
  exists masked,
    _mask_email email = masked ++ 64%N :: (split_first 64 email).2
    /\ contains_char 64 masked = false
    /\ len masked <= 4
    /\ (if len masked <=? 1 then lit "*" else char_at masked 0 ++ lit "***")
       = masked.
Proof.
  intros H. unfold _mask_email. rewrite H. simpl negb. cbv iota.
  destruct (split_first_spec 64 email H) as [_ Hfree].
  destruct (split_first 64 email) as [username domain]. simpl in *.
  destruct (masked_username_spec username Hfree) as [Hm Hagain].
  eexists. split; [reflexivity |]. split; [done |]. split; [| done].
  destruct (len username <=? 1); [done |].
  rewrite len_app. destruct username as [| c u]; [done |].
  by rewrite char_at_head.
Qed.

(** X3: for an e-mail value with an ['@'], Mask keeps everything after the
    first ['@'] (the domain) as it is, and puts at most four characters,
    none of them an ['@'], in front of it. *)
Theorem mask_apply_email_keeps_domain (email : list N) :
  contains_char 64 email = true ->
  let masked := mask_apply email (lit "email") in
  contains_char 64 masked = true
  /\ (split_first 64 masked).2 = (split_first 64 email).2
  /\ len (split_first 64 masked).1 <= 4.
Proof.
  intros H masked. unfold masked. rewrite mask_apply_email.
  destruct (mask_email_shape email H) as (m & -> & Hfree & Hlen & _).
  rewrite contains_char_app, (split_first_app _ _ _ Hfree). simpl.
  by rewrite orb_true_r.
Qed.

Lemma mask_apply_email_keeps_domain_witness :
  let masked := mask_apply (lit "john.doe@example.com") (lit "email") in
  contains_char 64 masked = true
  /\ (split_first 64 masked).2 = lit "example.com"
  /\ len (split_first 64 masked).1 <= 4.
Proof.
  exact (mask_apply_email_keeps_domain (lit "john.doe@example.com") eq_refl).
Defined.

(** An e-mail value without ['@'] is returned as it is. *)
Lemma mask_email_without_at (email : list N) :
  contains_char 64 email = false -> _mask_email email = email.
Proof. intros H. unfold _mask_email. by rewrite H. Qed.

(** *** Addresses *)

Lemma first_prefix_take patterns (address : list N) prefix :
  first_prefix patterns address = Some prefix ->
  exists n, prefix = take n address.
Proof.
  induction patterns as [| pattern rest IH]; simpl; [done |].
  unfold re_match.
  destruct (match_here pattern address) as [n |]; simpl; [| done].
  intros [= <-]. by exists n.
Qed.

(** [try_up] on a function shifted by one. *)
Lemma try_up_shift (f g : nat -> option nat) lo d :
  (forall k, f (S k) = option_map S (g k)) ->
  try_up f (S lo) d = option_map S (try_up g lo d).
Proof.
  intros H. revert lo. induction d as [| d IH]; intros lo; simpl;
    rewrite H; destruct (g lo); simpl; auto.
Qed.

(** A lazy star first tries the rest of the pattern where it stands, and
    takes one more character only when that fails. *)
Lemma match_here_lazy_star p r (s : list N) :
  match_here (lazy_star p :: r) s
  = match match_here r s with
    | Some m => Some m
    | None =>
        match s with
        | c :: s' =>
            if p c then option_map S (match_here (lazy_star p :: r) s')
            else None
        | [] => None
        end
    end.
Proof.
  cbn [match_here lazy_star cls rmin rmax greedy].
  change (run p None s <? 0)%nat with false. cbv iota.
  rewrite !Nat.sub_0_r.
  destruct s as [| c s']; simpl.
  { by destruct (match_here r []). }
  destruct (p c) eqn:Hp; simpl.
  - destruct (match_here r (c :: s')) as [m |]; simpl; [done |].
    change (run p None s' <? 0)%nat with false. cbv iota.
    rewrite Nat.sub_0_r. apply try_up_shift.
    intros k. simpl. by destruct (match_here r (drop k s')).
  - by destruct (match_here r (c :: s')).
Qed.

(** An atom for exactly one character of class [q]. *)
Lemma match_here_exactly_one q r (s : list N) :
  match_here (exactly q 1 :: r) s
  = match s with
    | c :: s' => if q c then option_map S (match_here r s') else None
    | [] => None
    end.
Proof.
  cbn [match_here exactly cls rmin rmax greedy].
  destruct s as [| c s']; [done |]. simpl.
  destruct (q c); [| done].
  replace (run q (Some 0%nat) s') with O by (by destruct s').
  simpl. by rewrite drop_0.
Qed.

Lemma first_line_cons c (s : list N) :
  first_line (c :: s) = if dot c then c :: first_line s else [].
Proof. unfold first_line. simpl. by destruct (dot c). Qed.

Lemma index_of_drop_None p (s : list N) n :
  index_of p s = None -> index_of p (drop n s) = None.
Proof.
  revert n. induction s as [| c s IH]; intros [| n]; simpl; try done.
  destruct (p c); [done |].
  destruct (index_of p s); [done |]. intros _. by apply IH.
Qed.

(** [.*?[q]] at the start of [s] stops after the first character of class
    [q] on the first line. *)
Lemma match_here_lazy_to q (s : list N) :
  (forall c, q c = true -> dot c = true) ->
  match_here [lazy_star dot; exactly q 1] s
  = option_map S (index_of q (first_line s)).
Proof.
  intros Hq. induction s as [| c s IH].
  { rewrite match_here_lazy_star, match_here_exactly_one. done. }
  rewrite match_here_lazy_star, match_here_exactly_one, first_line_cons.
  set (rest := match_here _ s) in *. clearbody rest.
  destruct (q c) eqn:E.
  - rewrite (Hq c E). simpl. by rewrite E.
  - destruct (dot c); [| done]. rewrite IH. simpl. rewrite E.
    by destruct (index_of q (first_line s)).
Qed.

(** [.*?[p].*?[q]] at the start of [s] stops after the first character of
    class [q] that follows the first character of class [p]. *)
Lemma match_here_lazy_to_to p q (s : list N) :
  (forall c, p c = true -> dot c = true) ->
  (forall c, q c = true -> dot c = true) ->
  match_here [lazy_star dot; exactly p 1; lazy_star dot; exactly q 1] s
  = match index_of p (first_line s) with
    | Some i =>
        option_map (fun j => (S i + S j)%nat)
                   (index_of q (drop (S i) (first_line s)))
    | None => None
    end.
Proof.
  intros Hp Hq. induction s as [| c s IH].
  { rewrite match_here_lazy_star, match_here_exactly_one. done. }
  rewrite match_here_lazy_star, match_here_exactly_one, first_line_cons.
  rewrite match_here_lazy_to by done.
  set (rest := match_here _ s) in *. clearbody rest.
  destruct (p c) eqn:E.
  - rewrite (Hp c E). simpl. rewrite E. simpl. rewrite drop_0.
    destruct (index_of q (first_line s)) as [j |] eqn:Ej; simpl; [done |].
    rewrite IH.
    destruct (index_of p (first_line s)) as [i |]; [| done].
    by rewrite index_of_drop_None.
  - destruct (dot c); [| done]. rewrite IH. simpl. rewrite E.
    destruct (index_of p (first_line s)) as [i |]; simpl; [| done].
    by destruct (index_of q (drop (S i) (first_line s))).
Qed.

Lemma slice_to_six (address : list N) :
  (len address >? 6) = true -> slice_to address 6 = take 6 address.
Proof.
  intros H. unfold slice_to, slice_bound. simpl.
  by replace (Z.to_nat (Z.min 6 (len address))) with 6%nat by lia.
Qed.

Lemma mask_address_kept (address : list N) :
  _mask_address address = kept_prefix address ++ lit "******".
Proof.
  assert (forall c, province_mark c = true -> dot c = true) as Hp.
  { intros c H. unfold province_mark, one_of in H. simpl in H.
    unfold dot. destruct (N.eqb_spec c 10) as [-> |]; [done | done]. }
  assert (forall c, district_mark c = true -> dot c = true) as Hd.
  { intros c H. unfold district_mark, one_of in H. simpl in H.
    unfold dot. destruct (N.eqb_spec c 10) as [-> |]; [done | done]. }
  unfold _mask_address, kept_prefix, address_patterns, first_prefix,
    re_match.
  fold province_mark district_mark.
  rewrite match_here_lazy_to_to, match_here_lazy_to by done.
  rewrite drop_0.
  destruct (index_of province_mark (first_line address)) as [i |];
    simpl.
  - destruct (index_of district_mark (drop (S i) (first_line address)))
      as [j |]; simpl; [done |].
    destruct (index_of district_mark (first_line address)) as [k |];
      simpl; [done |].
    destruct (len address >? 6) eqn:E; [| done].
    by rewrite slice_to_six.
  - destruct (index_of district_mark (first_line address)) as [k |];
      simpl; [done |].
    destruct (len address >? 6) eqn:E; [| done].
    by rewrite slice_to_six.
Qed.

Lemma kept_prefix_take (address : list N) :
  exists n, kept_prefix address = take n address.
Proof.
  unfold kept_prefix.
  destruct (index_of province_mark (first_line address)) as [i |];
    [destruct (index_of district_mark (drop (S i) (first_line address)))
       as [j |]; simpl; [by eexists |] |];
    (destruct (index_of district_mark (drop 0 (first_line address)))
       as [k |]; simpl; [by eexists |];
     destruct (len address >? 6); [by exists 6%nat | by exists 0%nat]).
Qed.

(** X4: what a masked address shows can be told from the address alone: it
    is the kept prefix followed by six mask characters. The kept prefix ends
    with the first district mark after the first province mark of the first
    line; without such a pair, with the first district mark; without any,
    after six characters, and an address of six characters or fewer keeps
    nothing. The result is at least six characters long. *)
Theorem mask_address_prefix (address : list N) :
  _mask_address address = kept_prefix address ++ lit "******"
  /\ (exists n, kept_prefix address = take n address)
  /\ 6 <= len (_mask_address address).
Proof.
  split; [apply mask_address_kept |]. split; [apply kept_prefix_take |].
  rewrite mask_address_kept, len_app.
  pose proof (len_nonneg (kept_prefix address)).
  change (len (lit "******")) with 6. lia.
Qed.

(** The two examples of the docstring of [_mask_address], and an address
    that is kept whole. *)
Example mask_address_examples :
  kept_prefix [21271; 20140; 24066; 26397; 38451; 21306; 88; 88; 36335; 49;
               48; 21495]%N
  = [21271; 20140; 24066; 26397; 38451; 21306]%N
  /\ kept_prefix [19978; 28023; 24066; 28006; 19996; 26032; 21306; 19990;
                  32426; 22823; 36947; 49; 48; 48; 21495]%N
     = [19978; 28023; 24066; 28006; 19996; 26032; 21306]%N
  /\ _mask_address [21271; 20140; 24066; 26397; 38451; 21306]%N
     = [21271; 20140; 24066; 26397; 38451; 21306]%N ++ lit "******".
Proof. vm_compute. auto. Qed.

(** *** Masking twice *)

Lemma mask_apply_name (value : list N) :
  mask_apply value (lit "name")
  = if len value <=? 1 then value
    else char_at value 0 ++ stars (len value - 1).
Proof.
  unfold mask_apply. destruct (str_eqb value []) eqn:E; [| done].
  apply str_eqb_true in E. by subst.
Qed.

Lemma mask_apply_default (value ty : list N) :
  ty ∉ [lit "name"; lit "id_card"; lit "phone"; lit "address";
        lit "bank_card"; lit "email"] ->
  mask_apply value ty
  = if len value <=? 2 then stars (len value)
    else char_at value 0 ++ stars (len value - 2) ++ char_at value (-1).
Proof.
  intros Hty. rewrite !not_elem_of_cons in Hty.
  destruct Hty as (H1 & H2 & H3 & H4 & H5 & H6 & _).
  unfold mask_apply.
  rewrite (str_eqb_false _ _ H1), (str_eqb_false _ _ H2),
    (str_eqb_false _ _ H3), (str_eqb_false _ _ H4),
    (str_eqb_false _ _ H5), (str_eqb_false _ _ H6).
  destruct (str_eqb value []) eqn:E; [| done].
  apply str_eqb_true in E. by subst.
Qed.

Lemma mask_apply_short (value : list N) :
  (len value < 18 -> mask_apply value (lit "id_card") = value)
  /\ (len value < 11 -> mask_apply value (lit "phone") = value)
  /\ (len value < 8 -> mask_apply value (lit "bank_card") = value).
Proof.
  split; [| split]; intros H; unfold mask_apply;
    (destruct (str_eqb value []) eqn:E; [done |]);
    repeat match goal with
    | |- context [str_eqb (lit ?a) (lit ?b)] =>
        let v := eval vm_compute in (str_eqb (lit a) (lit b)) in
        change (str_eqb (lit a) (lit b)) with v; cbv iota
    end.
  - destruct (len value <? 18) eqn:E'; [done | lia].
  - destruct (len value <? 11) eqn:E'; [done | lia].
  - destruct (len value <? 8) eqn:E'; [done | lia].
Qed.

Lemma len_last_four (s : list N) :
  4 <= len s -> len (slice_from s (-4)) = 4.
Proof. intros H. apply (len_slice_from_neg s 4). lia. Qed.

(** A string of one character is its last character. *)
Lemma char_at_last_singleton (s : list N) :
  1 <= len s -> exists c, char_at s (-1) = [c].
Proof.
  intros H. pose proof (len_char_at_last s H) as Hl.
  destruct (char_at s (-1)) as [| c [| c' t]]; [done | by exists c |].
  unfold len in Hl. simpl in Hl. lia.
Qed.

Lemma char_at_last_app (x : list N) c : char_at (x ++ [c]) (-1) = [c].
Proof.
  unfold char_at. rewrite len_app. change (len [c]) with 1.
  pose proof (len_nonneg x).
  destruct (-1 <? 0) eqn:E0; [| lia].
  destruct ((0 <=? len x + 1 + -1) && (len x + 1 + -1 <? len x + 1)) eqn:E;
    [| exfalso; lia].
  replace (Z.to_nat (len x + 1 + -1)) with (length x)
    by (unfold len in *; lia).
  by rewrite drop_app_length.
Qed.

Lemma mask_email_twice (email : list N) :
  _mask_email (_mask_email email) = _mask_email email.
Proof.
  destruct (contains_char 64 email) eqn:H.
  - destruct (mask_email_shape email H) as (m & -> & Hfree & _ & Hagain).
    unfold _mask_email at 1.
    rewrite contains_char_app. simpl contains_char at 2.
    rewrite orb_true_r. simpl negb. cbv iota.
    rewrite (split_first_app _ _ _ Hfree). by rewrite Hagain.
  - by rewrite !(mask_email_without_at _ H).
Qed.

(** X5: masking a masked value again changes nothing, for every category
    but [address]. *)
Theorem mask_apply_idempotent (value ty : list N) :
  ty <> lit "address" ->
  mask_apply (mask_apply value ty) ty = mask_apply value ty.
Proof.
  intros Haddress.
  destruct (decide (ty = lit "name")) as [-> | Hname].
  { rewrite !mask_apply_name.
    destruct (len value <=? 1) eqn:E; [by rewrite E |].
    destruct value as [| c value]; [done |]. rewrite char_at_head.
    assert (len ([c] ++ stars (len (c :: value) - 1)) = len (c :: value))
      as Hl by (rewrite len_app, len_stars; change (len [c]) with 1; lia).
    rewrite Hl, E. change ([c] ++ stars (len (c :: value) - 1))
      with (c :: stars (len (c :: value) - 1)).
    by rewrite char_at_head. }
  destruct (decide (ty = lit "id_card")) as [-> | Hid].
  { destruct (Z_lt_ge_dec (len value) 18) as [Hs | Hl].
    - by rewrite !(proj1 (mask_apply_short value) Hs).
    - rewrite (mask_apply_id_card value) by lia.
      destruct (ends_of_masked value (stars 8) 6) as [Hh Ht]; [lia | lia |].
      rewrite mask_apply_id_card, Hh, Ht; [done |].
      rewrite !len_app, len_stars, len_slice_to_le, len_last_four; lia. }
  destruct (decide (ty = lit "phone")) as [-> | Hphone].
  { destruct (Z_lt_ge_dec (len value) 11) as [Hs | Hl].
    - by rewrite !(proj1 (proj2 (mask_apply_short value)) Hs).
    - rewrite (mask_apply_phone value) by lia.
      destruct (ends_of_masked value (lit "****") 3) as [Hh Ht];
        [lia | lia |].
      rewrite mask_apply_phone, Hh, Ht; [done |].
      rewrite !len_app, len_slice_to_le, len_last_four;
        change (len (lit "****")) with 4; lia. }
  destruct (decide (ty = lit "bank_card")) as [-> | Hbank].
  { destruct (Z_lt_ge_dec (len value) 8) as [Hs | Hl].
    - by rewrite !(proj2 (proj2 (mask_apply_short value)) Hs).
    - rewrite (mask_apply_bank_card value) by lia.
      destruct (ends_of_masked value (stars (len value - 8)) 4) as [Hh Ht];
        [lia | lia |].
      assert (len (slice_to value 4 ++ stars (len value - 8)
                     ++ slice_from value (-4)) = len value) as Hlen
        by (rewrite !len_app, len_stars, len_slice_to_le, len_last_four;
            lia).
      rewrite mask_apply_bank_card, Hh, Ht, Hlen; [done | lia]. }
  destruct (decide (ty = lit "email")) as [-> | Hemail].
  { rewrite !mask_apply_email. apply mask_email_twice. }
  assert (ty ∉ [lit "name"; lit "id_card"; lit "phone"; lit "address";
                lit "bank_card"; lit "email"]) as Hty
    by (rewrite !not_elem_of_cons; repeat split; try done;
        apply not_elem_of_nil).
  rewrite !(mask_apply_default _ _ Hty).
  destruct (len value <=? 2) eqn:E.
  - rewrite len_stars.
    replace (Z.max 0 (len value)) with (len value)
      by (pose proof (len_nonneg value); lia).
    by rewrite E.
  - destruct value as [| c value]; [done |]. rewrite char_at_head.
    destruct (char_at_last_singleton (c :: value)) as [l Hl];
      [unfold len; simpl; lia |].
    rewrite Hl.
    assert (len ([c] ++ stars (len (c :: value) - 2) ++ [l])
            = len (c :: value)) as Hlen
      by (rewrite !len_app, len_stars; change (len [c]) with 1;
          change (len [l]) with 1; lia).
    rewrite Hlen, E.
    change ([c] ++ stars (len (c :: value) - 2) ++ [l])
      with (c :: (stars (len (c :: value) - 2) ++ [l])) at 1.
    rewrite char_at_head. f_equal. f_equal.
    change ([c] ++ stars (len (c :: value) - 2) ++ [l])
      with ((c :: stars (len (c :: value) - 2)) ++ [l]).
    apply char_at_last_app.
Qed.

Lemma mask_apply_idempotent_witness :
  mask_apply (lit "138****5678") (lit "phone") = lit "138****5678".
Proof.
  exact (mask_apply_idempotent (lit "13812345678") (lit "phone")
           ltac:(discriminate)).
Defined.

(** ** More on the pattern scan *)

Lemma run_le_length p cap (s : list N) : (run p cap s <= length s)%nat.
Proof.
  revert cap. induction s as [| c s IH]; intros cap.
  - destruct cap as [[| k] |]; simpl; lia.
  - destruct cap as [[| k] |]; simpl; [lia | |];
      (destruct (p c); [| lia]).
    + specialize (IH (Some k)). lia.
    + specialize (IH None). lia.
Qed.

Lemma run_le_cap p m (s : list N) : (run p (Some m) s <= m)%nat.
Proof.
  revert m. induction s as [| c s IH]; intros [| m]; simpl; try lia.
  destruct (p c); [| lia]. specialize (IH m). lia.
Qed.

Lemma try_down_range f base d n :
  try_down f base d = Some n ->
  exists k, (base <= k <= base + d)%nat /\ f k = Some n.
Proof.
  induction d as [| d IH]; simpl.
  - intros H. exists base. split; [lia | done].
  - destruct (f (base + S d)%nat) eqn:E.
    + intros [= <-]. exists (base + S d)%nat. split; [lia | done].
    + intros H. apply IH in H as (k & Hk & Hf). exists k. split; [lia | done].
Qed.

Lemma try_up_range f lo d n :
  try_up f lo d = Some n ->
  exists k, (lo <= k <= lo + d)%nat /\ f k = Some n.
Proof.
  revert lo. induction d as [| d IH]; intros lo; simpl.
  - destruct (f lo) eqn:E; [| done].
    intros [= <-]. exists lo. split; [lia | done].
  - destruct (f lo) eqn:E.
    + intros [= <-]. exists lo. split; [lia | done].
    + intros H. apply IH in H as (k & Hk & Hf). exists k. split; [lia | done].
Qed.

(** The first atom of a match takes between [rmin] and [run] characters,
    and the rest of the pattern matches what follows. *)
Lemma match_here_cons a r (s : list N) n :
  match_here (a :: r) s = Some n ->
  exists k m,
    n = (k + m)%nat
    /\ (rmin a <= k <= run (cls a) (rmax a) s)%nat
    /\ match_here r (drop k s) = Some m.
Proof.
  simpl. destruct (run (cls a) (rmax a) s <? rmin a)%nat eqn:E; [done |].
  apply Nat.ltb_ge in E. intros H.
  assert (exists k, (rmin a <= k
                     <= rmin a + (run (cls a) (rmax a) s - rmin a))%nat
            /\ option_map (Nat.add k) (match_here r (drop k s)) = Some n)
    as (k & Hk & Hm).
  { destruct (greedy a);
      [apply try_down_range in H | apply try_up_range in H]; exact H. }
  destruct (match_here r (drop k s)) as [m |] eqn:Em; [| done].
  injection Hm as <-. exists k, m. split; [done |]. split; [lia | done].
Qed.

(** A match does not run past the end of the string. *)
Lemma match_here_le_length r (s : list N) n :
  match_here r s = Some n -> (n <= length s)%nat.
Proof.
  revert s n. induction r as [| a r IH]; intros s n.
  - intros [= <-]. lia.
  - intros H. apply match_here_cons in H as (k & m & -> & Hk & Hm).
    apply IH in Hm. rewrite length_drop in Hm.
    pose proof (run_le_length (cls a) (rmax a) s). lia.
Qed.

(** A match of a bounded pattern takes at most [max_len] characters. *)
Lemma match_here_max_len r (s : list N) n bound :
  match_here r s = Some n -> max_len r = Some bound -> (n <= bound)%nat.
Proof.
  revert s n bound. induction r as [| a r IH]; intros s n bound.
  - intros [= <-] [= <-]. lia.
  - intros H. apply match_here_cons in H as (k & m & -> & Hk & Hm).
    simpl. destruct (rmax a) as [cap |] eqn:Ecap; [| done].
    destruct (max_len r) as [b |] eqn:Eb; [| done].
    intros [= <-]. specialize (IH _ _ _ Hm eq_refl).
    pose proof (run_le_cap (cls a) cap s). lia.
Qed.

(** Every match of a scan is a match of the pattern at its start. *)
Lemma finditer_from_match r (s : list N) pos skip start end_ :
  (start, end_) ∈ finditer_from r s pos skip ->
  pos <= start
  /\ exists n, end_ = start + Z.of_nat n
               /\ match_here r (drop (Z.to_nat (start - pos)) s) = Some n.
Proof.
  revert pos skip. induction s as [| c s IH]; intros pos skip; simpl.
  - intros H. by apply elem_of_nil in H.
  - assert (forall k, (start, end_) ∈ finditer_from r s (pos + 1) k ->
              pos <= start
              /\ exists n, end_ = start + Z.of_nat n
                   /\ match_here r (drop (Z.to_nat (start - pos)) (c :: s))
                      = Some n) as Htail.
    { intros k H. apply IH in H as (Hpos & n & He & Hm).
      split; [lia |]. exists n. split; [done |].
      replace (Z.to_nat (start - pos)) with (S (Z.to_nat (start - (pos + 1))))
        by lia.
      done. }
    destruct skip as [| k]; [| apply Htail].
    destruct (match_here r (c :: s)) as [n |] eqn:E; [| apply Htail].
    intros H. apply elem_of_cons in H as [[= -> ->] | H]; [| by eapply Htail].
    split; [lia |]. exists n. split; [done |].
    by rewrite Z.sub_diag.
Qed.

Lemma finditer_match r (text : list N) start end_ :
  (1 <= min_len r)%nat ->
  (start, end_) ∈ finditer r text ->
  0 <= start < end_
  /\ end_ <= len text
  /\ match_here r (drop (Z.to_nat start) text) = Some (Z.to_nat (end_ - start)).
Proof.
  intros Hr H. apply finditer_from_match in H as (Hpos & n & -> & Hm).
  rewrite Z.sub_0_r in Hm.
  pose proof (match_here_min_len _ _ _ Hm).
  pose proof (match_here_le_length _ _ _ Hm) as Hle.
  rewrite length_drop in Hle.
  split; [lia |]. split; [unfold len; lia |].
  replace (Z.to_nat (start + Z.of_nat n - start)) with n by lia. done.
Qed.

(** One match of the scan keeps every emitted item [scanned]. *)
Lemma regex_match_step_scanned unicode_decimal data_type pattern text st m :
  (data_type, pattern) ∈ REGEX_PATTERNS unicode_decimal ->
  Forall (scanned unicode_decimal text) st.1 ->
  0 <= m.1 < m.2
  /\ m.2 <= len text
  /\ match_here pattern (drop (Z.to_nat m.1) text)
     = Some (Z.to_nat (m.2 - m.1)) ->
  exists st', regex_match_step data_type text st m = Ok st'
              /\ Forall (scanned unicode_decimal text) st'.1.
Proof.
  destruct st as [items mp], m as [start end_]. simpl.
  intros Hin Hitems (Hpos & Hend & Hmatch).
  destruct (existsb _ (py_range start end_)); [by exists (items, mp) |].
  rewrite SensitiveItem_init_ok by lia. simpl.
  eexists. split; [reflexivity |]. simpl.
  apply Forall_app. split; [done |]. constructor; [| constructor].
  unfold scanned. simpl. repeat split; try done; try lia.
  by exists pattern.
Qed.

(** Every item of the scan is [scanned]. *)
Lemma regex_recognition_scanned unicode_decimal text items :
  _regex_recognition unicode_decimal text = Ok items ->
  Forall (scanned unicode_decimal text) items.
Proof.
  unfold _regex_recognition.
  destruct (foldM_invariant
    (fun st '(data_type, pattern) =>
       foldM (regex_match_step data_type text) st (finditer pattern text))
    (fun st => Forall (scanned unicode_decimal text) st.1)
    (fun p => p ∈ REGEX_PATTERNS unicode_decimal /\ (1 <= min_len p.2)%nat)
    (REGEX_PATTERNS unicode_decimal) ([], ∅)) as (st & -> & Hst).
  - intros st [data_type pattern] Hst [Hin Hmin]. simpl in Hmin.
    apply (foldM_invariant _ _
      (fun m => 0 <= m.1 < m.2 /\ m.2 <= len text
                /\ match_here pattern (drop (Z.to_nat m.1) text)
                   = Some (Z.to_nat (m.2 - m.1)))); [| | done].
    + intros b m Hb Hm. by eapply regex_match_step_scanned.
    + apply Forall_forall. intros [start end_] Hm. simpl.
      by apply finditer_match.
  - apply Forall_forall. intros p Hp. split; [done |].
    by apply (proj1 (Forall_forall _ _)
                (REGEX_PATTERNS_nonempty unicode_decimal)).
  - constructor.
  - simpl. by intros [= <-].
Qed.

Lemma len_match_group (text : list N) start end_ :
  0 <= start <= end_ -> end_ <= len text ->
  len (match_group text start end_) = end_ - start.
Proof.
  intros H1 H2. unfold match_group.
  rewrite len_slice_to, len_slice_from. unfold slice_bound.
  destruct (start <? 0) eqn:E1; [lia |].
  destruct (end_ - start <? 0) eqn:E2; lia.
Qed.

Lemma REGEX_PATTERNS_names unicode_decimal ty pattern :
  (ty, pattern) ∈ REGEX_PATTERNS unicode_decimal ->
  ty ∈ [lit "id_card"; lit "bank_card"; lit "phone"; lit "email"].
Proof.
  unfold REGEX_PATTERNS. intros H.
  repeat (apply elem_of_cons in H as [[= -> _] | H];
          [set_solver |]).
  by apply elem_of_nil in H.
Qed.

(** X6: every item of the pattern scan lies in the text and is not empty,
    its value is exactly the text between its positions, its confidence is
    1.0 and its category is one of the four pattern names. *)
Theorem regex_recognition_positions unicode_decimal text items item :
  _regex_recognition unicode_decimal text = Ok items ->
  item ∈ items ->
  0 <= start_pos item < end_pos item
  /\ end_pos item <= len text
  /\ value item = match_group text (start_pos item) (end_pos item)
  /\ len (value item) = end_pos item - start_pos item
  /\ confidence item = 1%float
  /\ type item ∈ [lit "id_card"; lit "bank_card"; lit "phone"; lit "email"].
Proof.
  intros Hscan Hitem.
  pose proof (proj1 (Forall_forall _ _)
                (regex_recognition_scanned _ _ _ Hscan) item Hitem)
    as (Hpos & Hend & Hvalue & Hconf & pattern & Hin & _).
  repeat split; try done; try lia.
  - rewrite Hvalue. apply len_match_group; lia.
  - by eapply REGEX_PATTERNS_names.
Qed.

Lemma regex_recognition_positions_witness :
  let text := lit "tel 13812345678, mail a@b.cn" in
  let item := mkSensitiveItem (lit "email") (lit "a@b.cn") 22 28 1%float in
  0 <= start_pos item < end_pos item
  /\ end_pos item <= len text
  /\ value item = match_group text (start_pos item) (end_pos item)
  /\ len (value item) = end_pos item - start_pos item
  /\ confidence item = 1%float
  /\ type item ∈ [lit "id_card"; lit "bank_card"; lit "phone"; lit "email"].
Proof.
  intros text item.
  apply (regex_recognition_positions ascii_digit text
           [mkSensitiveItem (lit "phone") (lit "13812345678") 4 15 1%float;
            item]).
  - vm_compute. reflexivity.
  - apply list_elem_of_further, list_elem_of_here.
Defined.

(** What the patterns say of the length of a match at the start of [s]. *)
Lemma REGEX_PATTERNS_lengths unicode_decimal ty pattern (s : list N) n :
  (ty, pattern) ∈ REGEX_PATTERNS unicode_decimal ->
  match_here pattern s = Some n ->
  (ty = lit "id_card" -> n = 18%nat)
  /\ (ty = lit "phone" -> n = 11%nat)
  /\ (ty = lit "bank_card" -> (16 <= n <= 19)%nat)
  /\ (ty = lit "email" -> (6 <= n)%nat).
Proof.
  unfold REGEX_PATTERNS. intros H Hm.
  pose proof (match_here_min_len _ _ _ Hm) as Hmin.
  pose proof (fun bound => match_here_max_len _ _ _ bound Hm) as Hmax.
  repeat (apply elem_of_cons in H as [[= -> ->] | H];
          [simpl in Hmin;
           try (specialize (Hmax _ eq_refl));
           (split; [| split; [| split]]); intros Heq;
           try (vm_compute in Heq; discriminate); lia |]).
  by apply elem_of_nil in H.
Qed.

(** X7: an item of the pattern scan has the length its pattern prescribes:
    18 characters for [id_card], 11 for [phone], 16 to 19 for [bank_card],
    at least 6 for [email]. *)
Theorem regex_recognition_lengths unicode_decimal text items item :
  _regex_recognition unicode_decimal text = Ok items ->
  item ∈ items ->
  (type item = lit "id_card" -> len (value item) = 18)
  /\ (type item = lit "phone" -> len (value item) = 11)
  /\ (type item = lit "bank_card" -> 16 <= len (value item) <= 19)
  /\ (type item = lit "email" -> 6 <= len (value item)).
Proof.
  intros Hscan Hitem.
  pose proof (proj1 (Forall_forall _ _)
                (regex_recognition_scanned _ _ _ Hscan) item Hitem)
    as (Hpos & Hend & Hvalue & _ & pattern & Hin & Hm).
  assert (len (value item) = end_pos item - start_pos item) as Hlen
    by (rewrite Hvalue; apply len_match_group; lia).
  destruct (REGEX_PATTERNS_lengths _ _ _ _ _ Hin Hm)
    as (Hid & Hphone & Hbank & Hemail).
  (split; [| split; [| split]]); intros Hty;
    [specialize (Hid Hty) | specialize (Hphone Hty)
     | specialize (Hbank Hty) | specialize (Hemail Hty)]; lia.
Qed.

Lemma regex_recognition_lengths_witness :
  let item := mkSensitiveItem (lit "phone") (lit "13812345678") 4 15 1%float in
  len (value item) = 11.
Proof.
  intros item.
  apply (proj1 (proj2 (regex_recognition_lengths ascii_digit
                         (lit "tel 13812345678") [item] item
                         ltac:(vm_compute; reflexivity)
                         ltac:(apply list_elem_of_here)))).
  reflexivity.
Defined.

(** ** More on the deduplicator *)

Lemma length_dedup_step deduplicated item :
  (length deduplicated <= length (dedup_step deduplicated item)
   <= S (length deduplicated))%nat.
Proof.
  unfold dedup_step.
  destruct (first_overlap item deduplicated O) as [[i existing] |].
  - repeat case_match; rewrite ?length_insert; lia.
  - rewrite length_app. simpl. lia.
Qed.

Lemma foldl_dedup_step_length l deduplicated :
  (length deduplicated <= length (foldl dedup_step deduplicated l)
   <= length deduplicated + length l)%nat.
Proof.
  revert deduplicated. induction l as [| item l IH]; intros deduplicated;
    simpl; [lia |].
  specialize (IH (dedup_step deduplicated item)).
  pose proof (length_dedup_step deduplicated item). lia.
Qed.

Lemma elem_of_foldl_dedup_step x l deduplicated :
  x ∈ foldl dedup_step deduplicated l -> x ∈ deduplicated \/ x ∈ l.
Proof.
  revert deduplicated. induction l as [| item l IH]; intros deduplicated;
    simpl; [by left |].
  intros H. apply IH in H as [H | H]; [| right; by right].
  apply elem_of_dedup_step in H as [H | ->]; [by left | right; by left].
Qed.

(** The first item in sorted order is accepted at once. *)
Lemma dedup_step_nil item : dedup_step [] item = [item].
Proof. reflexivity. Qed.

Lemma length_sorted_by {A} (before : A -> A -> bool) l :
  length (sorted_by before l) = length l.
Proof.
  induction l as [| x l IH]; simpl; [done |]. rewrite <- IH.
  generalize (sorted_by before l). intros m.
  induction m as [| y m IHm]; simpl; [done |].
  destruct (before y x); simpl; by rewrite ?IHm.
Qed.

(** X8: the deduplicator invents nothing and is never left empty-handed:
    every item of its output is an item of its input, the output is no
    longer than the input, and it is empty only for an empty input. *)
Theorem deduplicate_selects items :
  Forall (fun item => item ∈ items) (_deduplicate items)
  /\ (length (_deduplicate items) <= length items)%nat
  /\ (_deduplicate items = [] <-> items = []).
Proof.
  unfold _deduplicate. destruct items as [| first items].
  { split; [constructor |]. split; [done | done]. }
  set (l := sorted_by key_lt (first :: items)).
  split; [| split].
  - apply Forall_forall. intros x Hx.
    apply elem_of_foldl_dedup_step in Hx as [Hx | Hx];
      [by apply elem_of_nil in Hx |].
    by apply elem_of_sorted_by in Hx.
  - pose proof (foldl_dedup_step_length l []) as H.
    unfold l in H at 3. rewrite length_sorted_by in H. simpl in *. lia.
  - split; [| done]. intros H. exfalso.
    assert (length l = S (length items)) as Hl
      by (unfold l; by rewrite length_sorted_by).
    destruct l as [| item l']; [done |]. simpl in H.
    rewrite dedup_step_nil in H.
    pose proof (foldl_dedup_step_length l' [item]) as Hlen.
    rewrite H in Hlen. simpl in Hlen. lia.
Qed.

(** *** The order of the output *)

(** With non-empty spans walked in order of their start, a candidate can
    only overlap the last accepted item, so the accepted list stays in
    order from left to right. *)
Lemma dedup_step_ordered deduplicated item :
  StronglySorted ends_before deduplicated ->
  (forall x, x ∈ deduplicated -> start_pos x <= start_pos item) ->
  nonempty_span item ->
  StronglySorted ends_before (dedup_step deduplicated item).
Proof.
  intros Hsorted Hstart Hitem. unfold dedup_step.
  destruct (first_overlap item deduplicated O) as [[i existing] |] eqn:E.
  - apply first_overlap_Some in E as (_ & Hi & Hov & _).
    rewrite Nat.sub_0_r in Hi. apply overlap_true in Hov.
    assert (StronglySorted ends_before (<[i := item]> deduplicated)) as Hins.
    { apply list_elem_of_split_length in Hi as (l1 & l2 & -> & ->).
      pose proof (Hstart existing) as Hex.
      destruct l2 as [| w l2].
      - replace (length l1) with (length l1 + 0)%nat by lia.
        rewrite insert_app_r. simpl.
        apply StronglySorted_app in Hsorted as (Hcross & Hl1 & _).
        apply StronglySorted_app_2; [| done | repeat constructor].
        intros x1 x2 Hx1 Hx2. apply list_elem_of_singleton in Hx2 as ->.
        specialize (Hcross x1 existing Hx1 ltac:(by left)).
        unfold ends_before in *.
        specialize (Hex ltac:(apply elem_of_app; right; by left)). lia.
      - exfalso.
        apply StronglySorted_app_1_r, StronglySorted_cons in Hsorted
          as [Hw _].
        apply Forall_cons in Hw as [Hw _]. unfold ends_before in Hw.
        pose proof (Hstart w
          ltac:(apply elem_of_app; right; right; by left)). lia. }
    repeat case_match; done.
  - apply StronglySorted_app_2; [| done | repeat constructor].
    intros x1 x2 Hx1 Hx2. apply list_elem_of_singleton in Hx2 as ->.
    pose proof (first_overlap_None _ _ _ E x1 Hx1) as Hov.
    apply overlap_false in Hov. specialize (Hstart x1 Hx1).
    unfold ends_before, disjoint_spans, nonempty_span in *. lia.
Qed.

Lemma foldl_dedup_step_ordered l deduplicated :
  StronglySorted (fun a b => start_pos a <= start_pos b) l ->
  Forall nonempty_span l ->
  StronglySorted ends_before deduplicated ->
  (forall x y, x ∈ deduplicated -> y ∈ l -> start_pos x <= start_pos y) ->
  StronglySorted ends_before (foldl dedup_step deduplicated l).
Proof.
  intros Hs. revert deduplicated.
  induction Hs as [| item l Hs IH Hitem];
    intros deduplicated Hne Hsorted Hstart; simpl; [done |].
  apply Forall_cons in Hne as [Hne1 Hne].
  apply IH; [done | |].
  - apply dedup_step_ordered; [done | | done].
    intros x Hx. apply Hstart; [done | by left].
  - intros x y Hx Hy. apply elem_of_dedup_step in Hx as [Hx | ->].
    + apply Hstart; [done | by right].
    + by apply (proj1 (Forall_forall _ _) Hitem).
Qed.

(** X9: when every input span is non-empty, the output of the deduplicator
    is in order from left to right: each item ends where every later item
    starts, or before; in particular it is sorted by start position. *)
Theorem deduplicate_ordered items :
  Forall (fun item => start_pos item < end_pos item) items ->
  StronglySorted (fun a b => end_pos a <= start_pos b) (_deduplicate items).
Proof.
  intros Hne. unfold _deduplicate.
  destruct items as [| first items]; [constructor |].
  apply foldl_dedup_step_ordered.
  - apply sorted_items_by_start.
  - apply Forall_forall. intros x Hx. apply elem_of_sorted_by in Hx.
    by apply (proj1 (Forall_forall _ _) Hne).
  - constructor.
  - intros x y Hx. by apply elem_of_nil in Hx.
Qed.

Lemma deduplicate_ordered_witness :
  let n := mkSensitiveItem (lit "name") (lit "abcde") 0 5 nlp_confidence in
  let p := mkSensitiveItem (lit "phone") (lit "cdefg") 2 7 1%float in
  let e := mkSensitiveItem (lit "email") (lit "hi") 7 9 1%float in
  StronglySorted (fun a b => end_pos a <= start_pos b) [p; e].
Proof.
  intros n p e.
  apply (deduplicate_ordered [e; n; p]).
  repeat constructor.
Defined.

(** *** Input without conflicts *)

Lemma conflict_free_cons x l :
  conflict_free (x :: l) <-> Forall (disjoint_spans x) l /\ conflict_free l.
Proof.
  split.
  - intros H. split.
    + apply Forall_forall. intros y Hy.
      apply list_elem_of_lookup in Hy as [j Hj].
      by apply (H O (S j) x y).
    + intros i j a b Ha Hb Hij. by apply (H (S i) (S j) a b); [| | lia].
  - intros [Hx Hl] i j a b Ha Hb Hij.
    destruct i as [| i], j as [| j]; simpl in *; [done | | |].
    + injection Ha as <-.
      apply (proj1 (Forall_forall _ _) Hx). by eapply list_elem_of_lookup_2.
    + injection Hb as <-. apply disjoint_spans_sym.
      apply (proj1 (Forall_forall _ _) Hx). by eapply list_elem_of_lookup_2.
    + apply (Hl i j a b); [done | done | lia].
Qed.

(** Being free of conflicts does not depend on the order of the list. *)
Lemma conflict_free_perm l l' :
  l ≡ₚ l' -> conflict_free l -> conflict_free l'.
Proof.
  induction 1 as [| x l l' Hp IH | x y l | l l' l'' _ IH1 _ IH2].
  - done.
  - rewrite !conflict_free_cons. intros [Hx Hl]. split; [| by apply IH].
    by rewrite <- Hp.
  - rewrite !conflict_free_cons.
    intros (Hy & Hx & Hl). apply Forall_cons in Hy as [Hyx Hy].
    split; [| done]. constructor; [by apply disjoint_spans_sym | done].
  - auto.
Qed.

Lemma insert_by_perm {A} (before : A -> A -> bool) x l :
  insert_by before x l ≡ₚ x :: l.
Proof.
  induction l as [| y l IH]; simpl; [done |].
  destruct (before y x); [| done].
  rewrite IH. apply perm_swap.
Qed.

(** Sorting rearranges; it neither drops nor repeats. *)
Lemma sorted_by_perm {A} (before : A -> A -> bool) l :
  sorted_by before l ≡ₚ l.
Proof.
  induction l as [| x l IH]; simpl; [done |].
  by rewrite insert_by_perm, IH.
Qed.

Lemma first_overlap_None_intro item l k :
  (forall x, x ∈ l -> overlap item x = false) ->
  first_overlap item l k = None.
Proof.
  revert k. induction l as [| y l IH]; intros k H; simpl; [done |].
  rewrite (H y) by (by left). apply IH. intros x Hx. apply H. by right.
Qed.

Lemma foldl_dedup_step_conflict_free_input l deduplicated :
  conflict_free (deduplicated ++ l) ->
  foldl dedup_step deduplicated l = deduplicated ++ l.
Proof.
  revert deduplicated. induction l as [| item l IH]; intros deduplicated H;
    simpl; [by rewrite app_nil_r |].
  assert (dedup_step deduplicated item = deduplicated ++ [item]) as ->.
  { unfold dedup_step. rewrite first_overlap_None_intro; [done |].
    intros x Hx. apply overlap_false, disjoint_spans_sym.
    apply list_elem_of_lookup in Hx as [i Hi].
    apply (H i (length deduplicated) x item).
    - by apply lookup_app_l_Some.
    - by rewrite list_lookup_middle.
    - apply lookup_lt_Some in Hi. lia. }
  rewrite IH; rewrite <- app_assoc; done.
Qed.

(** X10: when no two input spans overlap, the deduplicator drops nothing:
    its output is the input sorted by [(start_pos, end_pos)], equal keys in
    their input order. *)
Theorem deduplicate_conflict_free_input items :
  conflict_free items -> _deduplicate items = sorted_by key_lt items.
Proof.
  intros H. unfold _deduplicate. destruct items as [| first items]; [done |].
  apply (foldl_dedup_step_conflict_free_input _ []). rewrite app_nil_l.
  eapply conflict_free_perm; [| exact H].
  symmetry. apply (sorted_by_perm key_lt (first :: items)).
Qed.

Lemma deduplicate_conflict_free_input_witness :
  let p := mkSensitiveItem (lit "phone") (lit "cdefg") 2 7 1%float in
  let e := mkSensitiveItem (lit "email") (lit "hi") 7 9 1%float in
  _deduplicate [e; p] = [p; e].
Proof.
  intros p e. apply (deduplicate_conflict_free_input [e; p]).
  apply conflict_free_cons. split; [| apply conflict_free_cons; split].
  - constructor; [| constructor]. right. simpl. lia.
  - constructor.
  - apply conflict_free_nil.
Defined.

(** ** More on the entry point *)

Lemma deduplicate_no_conflict items : conflict_free (_deduplicate items).
Proof.
  unfold _deduplicate. destruct items as [| item items];
    [apply conflict_free_nil |].
  apply foldl_dedup_step_conflict_free.
  - apply sorted_items_by_start.
  - apply conflict_free_nil.
  - intros x y Hx. by apply elem_of_nil in Hx.
Qed.

(** [identify_sensitive_data] by cases on what the NLP step does. *)
Lemma identify_cases unicode_decimal load_nlp_model text use_nlp :
  exists regex_items,
    _regex_recognition unicode_decimal text = Ok regex_items
    /\ identify_sensitive_data unicode_decimal load_nlp_model text use_nlp
       = if use_nlp then
           match _nlp_recognition load_nlp_model text with
           | Ok nlp_items => Ok (_deduplicate (regex_items ++ nlp_items))
           | Raise RecognitionError => Raise RecognitionError
           | Raise _ => Ok (_deduplicate regex_items)
           end
         else Ok (_deduplicate regex_items).
Proof.
  destruct (regex_recognition_loops unicode_decimal text) as (st & H & _).
  assert (_regex_recognition unicode_decimal text = Ok st.1) as Hscan
    by (unfold _regex_recognition; by rewrite H).
  exists st.1. split; [done |].
  unfold identify_sensitive_data. rewrite Hscan. simpl.
  destruct use_nlp; [| done].
  destruct (_nlp_recognition load_nlp_model text) as [nlp_items | []]; done.
Qed.

(** X11: the only exception [identify_sensitive_data] raises is
    [RecognitionError], only when NLP was asked for, and only because the
    NLP step raised it. *)
Theorem identify_raises_only_recognition_error unicode_decimal load_nlp_model
    text use_nlp e :
  identify_sensitive_data unicode_decimal load_nlp_model text use_nlp
  = Raise e ->
  e = RecognitionError
  /\ use_nlp = true
  /\ _nlp_recognition load_nlp_model text = Raise RecognitionError.
Proof.
  destruct (identify_cases unicode_decimal load_nlp_model text use_nlp)
    as (regex_items & _ & ->).
  destruct use_nlp; [| done].
  destruct (_nlp_recognition load_nlp_model text) as [nlp_items | []];
    [done | done | | done].
  by intros [= <-].
Qed.

Lemma identify_raises_only_recognition_error_witness :
  RecognitionError = RecognitionError
  /\ true = true
  /\ _nlp_recognition (Raise RecognitionError) (lit "tel 13812345678")
     = Raise RecognitionError.
Proof.
  apply (identify_raises_only_recognition_error ascii_digit
           (Raise RecognitionError) (lit "tel 13812345678") true
           RecognitionError).
  vm_compute. reflexivity.
Defined.

(** X12: when the NLP step fails with anything but [RecognitionError] (the
    pipeline raises, or an entity has its end before its start), the failure
    is swallowed whole: the result is that of recognition without NLP. *)
Theorem identify_degrades unicode_decimal load_nlp_model text e :
  _nlp_recognition load_nlp_model text = Raise e ->
  e <> RecognitionError ->
  identify_sensitive_data unicode_decimal load_nlp_model text true
  = identify_sensitive_data unicode_decimal load_nlp_model text false.
Proof.
  intros Hnlp He.
  destruct (identify_cases unicode_decimal load_nlp_model text true)
    as (regex_items & Hscan & ->).
  destruct (identify_cases unicode_decimal load_nlp_model text false)
    as (regex_items' & Hscan' & ->).
  rewrite Hscan in Hscan'. injection Hscan' as <-.
  rewrite Hnlp. by destruct e.
Qed.

Lemma identify_degrades_witness :
  let pipeline (text : list N) :=
    Ok [Entity (lit "PERSON") (lit "Li") 0 2;
        Entity (lit "GPE") (lit "Pekin") 9 4] in
  identify_sensitive_data ascii_digit (Ok pipeline)
    (lit "Li, tel 13812345678") true
  = identify_sensitive_data ascii_digit (Ok pipeline)
      (lit "Li, tel 13812345678") false.
Proof.
  intros pipeline.
  apply (identify_degrades ascii_digit (Ok pipeline)
           (lit "Li, tel 13812345678") ValueError).
  - vm_compute. reflexivity.
  - discriminate.
Defined.

(** X13: without NLP, [identify_sensitive_data] returns every item of the
    pattern scan, sorted by position: the scan's items never overlap, so
    the deduplicator drops none of them. Each item lies in the text, is not
    empty and carries the text it covers, and each ends where the next
    starts, or before. *)
Theorem identify_without_nlp_positions unicode_decimal load_nlp_model text :
  exists regex_items items,
    _regex_recognition unicode_decimal text = Ok regex_items
    /\ identify_sensitive_data unicode_decimal load_nlp_model text false
       = Ok items
    /\ items = sorted_by key_lt regex_items
    /\ Forall (fun item =>
                 0 <= start_pos item < end_pos item
                 /\ end_pos item <= len text
                 /\ value item
                    = match_group text (start_pos item) (end_pos item))
              items
    /\ StronglySorted (fun a b => end_pos a <= start_pos b) items.
Proof.
  destruct (regex_recognition_loops unicode_decimal text)
    as (st & Hloops & Hclaimed & Hfree).
  assert (_regex_recognition unicode_decimal text = Ok st.1) as Hscan
    by (unfold _regex_recognition; by rewrite Hloops).
  pose proof (regex_recognition_scanned _ _ _ Hscan) as Hscanned.
  exists st.1, (_deduplicate st.1). split; [done |]. split.
  { unfold identify_sensitive_data. by rewrite Hscan. }
  assert (_deduplicate st.1 = sorted_by key_lt st.1) as Hsort.
  { unfold _deduplicate. destruct st.1 as [| first items] eqn:E; [done |].
    apply (foldl_dedup_step_conflict_free_input _ []). rewrite app_nil_l.
    eapply conflict_free_perm; [| exact Hfree].
    symmetry. apply (sorted_by_perm key_lt (first :: items)). }
  split; [done |]. split.
  - rewrite Hsort. apply Forall_forall. intros item Hitem.
    apply elem_of_sorted_by in Hitem.
    by destruct (proj1 (Forall_forall _ _) Hscanned item Hitem)
      as (? & ? & ? & _).
  - unfold _deduplicate. destruct st.1 as [| first items] eqn:E;
      [constructor |].
    apply foldl_dedup_step_ordered.
    + apply sorted_items_by_start.
    + apply Forall_forall. intros x Hx. apply elem_of_sorted_by in Hx.
      by destruct (proj1 (Forall_forall _ _) Hscanned x Hx) as ([? ?] & _).
    + constructor.
    + intros x y Hx. by apply elem_of_nil in Hx.
Qed.

(** X14: whatever the NLP backend returns, the spans that
    [identify_sensitive_data] returns never overlap. *)
Theorem identify_conflict_free unicode_decimal load_nlp_model text use_nlp
    items :
  identify_sensitive_data unicode_decimal load_nlp_model text use_nlp
  = Ok items ->
  conflict_free items.
Proof.
  destruct (identify_cases unicode_decimal load_nlp_model text use_nlp)
    as (regex_items & _ & ->).
  destruct use_nlp;
    [destruct (_nlp_recognition load_nlp_model text) as [nlp_items | []] |];
    intros [= <-]; apply deduplicate_no_conflict.
Qed.

Lemma identify_conflict_free_witness :
  let pipeline (text : list N) :=
    Ok [Entity (lit "PERSON") (lit "Li, tel 138") 0 11] in
  conflict_free
    [mkSensitiveItem (lit "phone") (lit "13812345678") 8 19 1%float].
Proof.
  intros pipeline.
  apply (identify_conflict_free ascii_digit (Ok pipeline)
           (lit "Li, tel 13812345678") true).
  vm_compute. reflexivity.
Defined.

(** X15: the recognition step of the command line never fails: when NLP is
    unavailable it falls back to the pattern scan, and in every case it
    returns spans that do not overlap. *)
Theorem cli_identify_total unicode_decimal load_nlp_model content :
  exists sensitive_items,
    cli_identify unicode_decimal load_nlp_model content = Ok sensitive_items
    /\ conflict_free sensitive_items.
Proof.
  unfold cli_identify.
  destruct (identify_cases unicode_decimal load_nlp_model content true)
    as (regex_items & Hscan & ->).
  destruct (identify_cases unicode_decimal load_nlp_model content false)
    as (regex_items' & _ & ->).
  destruct (_nlp_recognition load_nlp_model content) as [nlp_items | []];
    eexists; (split; [reflexivity | apply deduplicate_no_conflict]).
Qed.

(** ** More on the processor *)

(** *** The resolver *)

Lemma find_rule_None ty rules :
  _find_rule ty rules = None
  <-> Forall (fun rule => data_type rule <> ty \/ enabled rule = false) rules.
Proof.
  induction rules as [| r rules IH]; simpl; [by split; [constructor |] |].
  destruct (str_eqb (data_type r) ty && enabled r) eqn:E.
  - split; [done |]. intros H. apply Forall_cons in H as [[H | H] _].
    + apply andb_true_iff in E as [E _]. by apply str_eqb_true in E.
    + apply andb_true_iff in E as [_ E]. congruence.
  - rewrite IH, Forall_cons. split; [| tauto]. intros H. split; [| done].
    apply andb_false_iff in E as [E | E]; [left | by right].
    intros Heq. apply str_eqb_true in Heq. congruence.
Qed.

(** X16: the resolver returns the first rule, in the order of the list, that
    is of the category asked for and enabled; rules before it are of another
    category or disabled, rules after it play no part. *)
Theorem find_rule_first_enabled ty rules rule :
  _find_rule ty rules = Some rule
  <-> exists earlier later,
        rules = earlier ++ rule :: later
        /\ data_type rule = ty
        /\ enabled rule = true
        /\ Forall (fun r => data_type r <> ty \/ enabled r = false) earlier.
Proof.
  split.
  - induction rules as [| r rules IH]; simpl; [done |].
    destruct (str_eqb (data_type r) ty && enabled r) eqn:E.
    + intros [= <-]. apply andb_true_iff in E as [E1 E2].
      apply str_eqb_true in E1. by exists [], rules.
    + intros H. destruct (IH H) as (earlier & later & -> & Hty & Hen & Hall).
      exists (r :: earlier), later. repeat split; try done.
      constructor; [| done].
      apply andb_false_iff in E as [E | E]; [left | by right].
      intros Heq. apply str_eqb_true in Heq. congruence.
  - intros (earlier & later & -> & Hty & Hen & Hall).
    induction Hall as [| r earlier Hr _ IH]; simpl.
    + by rewrite Hen, (proj2 (str_eqb_true _ _) Hty).
    + destruct (str_eqb (data_type r) ty && enabled r) eqn:E; [| done].
      apply andb_true_iff in E as [E1 E2]. apply str_eqb_true in E1.
      destruct Hr; congruence.
Qed.

Lemma find_rule_first_enabled_witness :
  let off := mkRule (lit "r1") (lit "a") (lit "phone") (lit "delete") false in
  let first := mkRule (lit "r2") (lit "b") (lit "phone") (lit "mask") true in
  let second :=
    mkRule (lit "r3") (lit "c") (lit "phone") (lit "replace") true in
  _find_rule (lit "phone") [off; first; second] = Some first.
Proof.
  intros off first second.
  apply (proj2 (find_rule_first_enabled (lit "phone") [off; first; second]
                  first)).
  exists [off], [second]. repeat split. constructor; [by right | constructor].
Defined.

(** *** Spans that no rule covers *)

Lemma process_loop_no_rule rules items st :
  Forall (fun item => _find_rule (type item) rules = None) items ->
  process_loop rules st items = (st, []).
Proof.
  induction 1 as [| item items Hitem _ IH]; [done |].
  cbn [process_loop]. unfold process_item. destruct st as [result mapping].
  rewrite Hitem. by rewrite IH.
Qed.

(** X17: when every rule is disabled or of a category that no span has,
    [process] returns the text unchanged, whatever the spans are. *)
Theorem process_without_applicable_rule text items rules :
  Forall (fun rule =>
            enabled rule = false
            \/ Forall (fun item => type item <> data_type rule) items)
         rules ->
  process text items rules = text.
Proof.
  intros Hrules. unfold process.
  destruct (is_empty text || is_empty items); [done |].
  rewrite process_loop_no_rule; [done |].
  apply Forall_forall. intros item Hitem. apply find_rule_None.
  eapply Forall_impl; [exact Hrules |]. intros rule [Hoff | Hty]; [by right |].
  left. intros Heq. apply elem_of_sorted_by in Hitem.
  by apply (proj1 (Forall_forall _ _) Hty item Hitem).
Qed.

Lemma process_without_applicable_rule_witness :
  let text := lit "tel 13812345678, mail a@b.cn" in
  let phone := mkSensitiveItem (lit "phone") (lit "13812345678") 4 15 1%float in
  let mail := mkSensitiveItem (lit "email") (lit "a@b.cn") 22 28 1%float in
  let off := mkRule (lit "r1") (lit "a") (lit "phone") (lit "mask") false in
  let names := mkRule (lit "r2") (lit "b") (lit "name") (lit "mask") true in
  process text [phone; mail] [off; names] = text.
Proof.
  intros text phone mail off names.
  apply (process_without_applicable_rule text [phone; mail] [off; names]).
  constructor; [by left |]. constructor; [| constructor].
  right. constructor; [discriminate |]. constructor; [discriminate |].
  constructor.
Defined.

(** *** The order of the spans *)

(** Two spans with different starts are put in the same order whichever is
    inserted first. *)
Lemma insert_reverse_comm x y l :
  start_pos x <> start_pos y ->
  insert_by (fun y x => start_pos x <? start_pos y) x
    (insert_by (fun y x => start_pos x <? start_pos y) y l)
  = insert_by (fun y x => start_pos x <? start_pos y) y
      (insert_by (fun y x => start_pos x <? start_pos y) x l).
Proof.
  intros Hne.
  destruct (start_pos x <? start_pos y) eqn:E1,
           (start_pos y <? start_pos x) eqn:E2;
    try (exfalso; lia);
    (induction l as [| z l IH]; simpl;
     [by rewrite ?E1, ?E2 |];
     destruct (start_pos y <? start_pos z) eqn:Ey,
              (start_pos x <? start_pos z) eqn:Ex;
     simpl; rewrite ?E1, ?E2, ?Ey, ?Ex; simpl; rewrite ?E1, ?E2, ?Ey, ?Ex;
     try done; try (by rewrite IH); exfalso; lia).
Qed.

(** Spans with pairwise different starts are sorted to the same list from
    every order. *)
Lemma sort_reverse_perm items items' :
  items ≡ₚ items' ->
  NoDup (start_pos <$> items) ->
  sort_reverse items = sort_reverse items'.
Proof.
  unfold sort_reverse.
  induction 1 as [| x l l' Hp IH | x y l | l l' l'' Hp1 IH1 Hp2 IH2];
    intros Hnd; simpl in *.
  - done.
  - apply NoDup_cons in Hnd as [_ Hnd]. by rewrite IH.
  - apply insert_reverse_comm.
    apply NoDup_cons in Hnd as [Hy _]. intros Heq. apply Hy.
    rewrite Heq. by left.
  - rewrite IH1 by done. apply IH2. by rewrite <- Hp1.
Qed.

(** X18: when no two spans start at the same position, the result of
    [process] does not depend on the order in which the spans are given. *)
Theorem process_order_independent text items items' rules :
  items ≡ₚ items' ->
  NoDup (start_pos <$> items) ->
  process text items rules = process text items' rules.
Proof.
  intros Hp Hnd. unfold process.
  rewrite (sort_reverse_perm _ _ Hp Hnd).
  assert (is_empty items = is_empty items') as ->; [| done].
  destruct items, items'; try done.
  - by apply Permutation_nil_cons in Hp.
  - symmetry in Hp. by apply Permutation_nil_cons in Hp.
Qed.

Lemma process_order_independent_witness :
  let text := lit "tel 13812345678, mail a@b.cn" in
  let phone := mkSensitiveItem (lit "phone") (lit "13812345678") 4 15 1%float in
  let mail := mkSensitiveItem (lit "email") (lit "a@b.cn") 22 28 1%float in
  let rules :=
    [mkRule (lit "r1") (lit "a") (lit "phone") (lit "mask") true;
     mkRule (lit "r2") (lit "b") (lit "email") (lit "replace") true] in
  process text [phone; mail] rules = process text [mail; phone] rules.
Proof.
  intros text phone mail rules.
  apply (process_order_independent text [phone; mail] [mail; phone] rules).
  - apply perm_swap.
  - apply NoDup_cons. split; [| apply NoDup_singleton].
    intros H. apply list_elem_of_singleton in H. discriminate.
Defined.

(** *** The splice as a rebuild *)

Lemma slice_to_take (s : list N) i : 0 <= i -> slice_to s i = take (Z.to_nat i) s.
Proof.
  intros H. unfold slice_to, slice_bound.
  destruct (i <? 0) eqn:E; [lia |].
  destruct (Z_le_gt_dec i (len s)) as [Hle | Hgt].
  - by replace (Z.min i (len s)) with i by lia.
  - replace (Z.min i (len s)) with (len s) by lia.
    rewrite !take_ge; [done | unfold len in *; lia | unfold len; lia].
Qed.

Lemma slice_from_drop (s : list N) i :
  0 <= i -> slice_from s i = drop (Z.to_nat i) s.
Proof.
  intros H. unfold slice_from, slice_bound.
  destruct (i <? 0) eqn:E; [lia |].
  destruct (Z_le_gt_dec i (len s)) as [Hle | Hgt].
  - by replace (Z.min i (len s)) with i by lia.
  - replace (Z.min i (len s)) with (len s) by lia.
    rewrite !drop_ge; [done | unfold len in *; lia | unfold len; lia].
Qed.

Lemma match_group_take_drop (s : list N) i j :
  0 <= i <= j ->
  match_group s i j = take (Z.to_nat (j - i)) (drop (Z.to_nat i) s).
Proof.
  intros H. unfold match_group.
  rewrite slice_to_take, slice_from_drop by lia. done.
Qed.

Lemma chain_mono bound bound' items :
  bound <= bound' -> chain bound items -> chain bound' items.
Proof.
  destruct items as [| item rest]; simpl; [done |].
  intros H (H1 & H2 & H3). repeat split; try done; lia.
Qed.

(** What the loop body does to the text. *)
Lemma process_item_text rules result mapping item st' new_value :
  process_item rules (result, mapping) item = (st', new_value) ->
  st'.1 = match new_value with
          | Some v => slice_to result (start_pos item) ++ v
                        ++ slice_from result (end_pos item)
          | None => result
          end.
Proof.
  unfold process_item.
  destruct (_find_rule (type item) rules) as [rule |];
    [| by intros [= <- <-]].
  destruct (enabled rule); [| by intros [= <- <-]].
  destruct (strategies !! strategy rule) as [s |]; [| by intros [= <- <-]].
  destruct (mapping !! cache_key item); by intros [= <- <-].
Qed.

(** The rebuild reads the text only below [right]. *)
Lemma rebuild_ext (t1 t2 : list N) log right :
  0 <= right ->
  chain right log.*1 ->
  take (Z.to_nat right) t1 = take (Z.to_nat right) t2 ->
  rebuild t1 log right = rebuild t2 log right.
Proof.
  revert right. induction log as [| [item v] log IH]; intros right Hr; simpl.
  - intros _ H. by rewrite !slice_to_take.
  - intros (Hs & He & Hc) H.
    assert (forall n, (n <= Z.to_nat right)%nat -> take n t1 = take n t2)
      as Hsub.
    { intros n Hn.
      replace n with (n `min` Z.to_nat right)%nat by lia.
      by rewrite <- !take_take, H. }
    rewrite (IH _ (proj1 Hs) Hc) by (apply Hsub; lia).
    rewrite !match_group_take_drop by lia.
    f_equal. f_equal.
    rewrite !take_drop_commute.
    replace (Z.to_nat (end_pos item) + Z.to_nat (right - end_pos item))%nat
      with (Z.to_nat right) by lia.
    by rewrite H.
Qed.

(** The loop on spans that form a chain below [bound]: the text from
    [bound] on is left alone, the text below is rebuilt. *)
Lemma process_loop_rebuild rules items result mapping bound st' log :
  0 <= bound ->
  chain bound items ->
  bound <= len result ->
  process_loop rules (result, mapping) items = (st', log) ->
  st'.1 = rebuild result log bound ++ slice_from result bound
  /\ chain bound log.*1.
Proof.
  revert result mapping bound st' log.
  induction items as [| item items IH];
    intros result mapping bound st' log Hb Hchain Hlen; cbn [process_loop].
  - intros [= <- <-]. simpl. split; [| done].
    rewrite slice_to_take, slice_from_drop by done.
    by rewrite take_drop.
  - destruct (process_item rules (result, mapping) item)
      as [[result1 mapping1] new_value] eqn:E1.
    destruct (process_loop rules (result1, mapping1) items)
      as [st2 log2] eqn:E2.
    intros [= <- <-]. destruct Hchain as (Hs & He & Hc).
    pose proof (process_item_text _ _ _ _ _ _ E1) as Ht. simpl in Ht.
    destruct new_value as [v |].
    + set (s := Z.to_nat (start_pos item)).
      assert (length (take s result) = s) as Htake
        by (rewrite length_take; unfold s, len in *; lia).
      rewrite slice_to_take, slice_from_drop in Ht by lia. fold s in Ht.
      assert (start_pos item <= len result1) as Hlen1.
      { rewrite Ht, len_app. unfold len at 1. rewrite Htake.
        pose proof (len_nonneg
                      (v ++ drop (Z.to_nat (end_pos item)) result)).
        unfold s. lia. }
      destruct (IH result1 mapping1 (start_pos item) st2 log2
                  (proj1 Hs) Hc Hlen1 E2) as [Hst2 Hlog2].
      split; [| simpl; repeat split; try done; lia].
      rewrite Hst2. simpl.
      rewrite (rebuild_ext result1 result) by
        (try done; try lia; subst result1; fold s;
         by rewrite take_app_length').
      rewrite (slice_from_drop result1) by lia. fold s. subst result1.
      rewrite drop_app_length' by done.
      rewrite match_group_take_drop, slice_from_drop by lia.
      rewrite <- !app_assoc. f_equal. f_equal.
      replace (drop (Z.to_nat bound) result)
        with (drop (Z.to_nat (bound - end_pos item))
                   (drop (Z.to_nat (end_pos item)) result))
        by (rewrite drop_drop; f_equal; lia).
      by rewrite take_drop.
    + subst result1.
      assert (chain bound items) as Hc'
        by (eapply chain_mono; [| exact Hc]; lia).
      apply (IH _ _ bound _ _ Hb Hc' Hlen E2).
Qed.

(** Sorted from right to left, spans that do not overlap form a chain. *)
Lemma chain_of_sorted bound items :
  StronglySorted (fun a b => start_pos b <= start_pos a) items ->
  conflict_free items ->
  Forall (fun item => 0 <= start_pos item < end_pos item
                      /\ end_pos item <= bound) items ->
  chain bound items.
Proof.
  intros Hs. revert bound.
  induction Hs as [| x l Hs IH Hx]; intros bound Hfree Hall; simpl; [done |].
  apply conflict_free_cons in Hfree as [Hdis Hfree].
  apply Forall_cons in Hall as [(Hx0 & Hxb) Hall].
  split; [lia |]. split; [done |].
  apply IH; [done |].
  apply Forall_forall. intros y Hy.
  pose proof (proj1 (Forall_forall _ _) Hx y Hy) as Hle.
  pose proof (proj1 (Forall_forall _ _) Hdis y Hy) as Hd.
  pose proof (proj1 (Forall_forall _ _) Hall y Hy) as [Hy0 _].
  unfold disjoint_spans in Hd. simpl in Hle. lia.
Qed.

Lemma sort_reverse_sorted items :
  StronglySorted (fun a b => start_pos b <= start_pos a) (sort_reverse items).
Proof.
  eapply StronglySorted_weaken;
    [| apply (sorted_by_sorted (fun y x => start_pos x <? start_pos y))].
  - intros a b. unfold inorder. lia.
  - intros x y. lia.
  - intros x y z. unfold inorder. lia.
Qed.

Lemma sort_reverse_chain (text : list N) items :
  Forall (fun item => 0 <= start_pos item < end_pos item
                      /\ end_pos item <= len text) items ->
  conflict_free items ->
  chain (len text) (sort_reverse items).
Proof.
  intros Hall Hfree. apply chain_of_sorted.
  - apply sort_reverse_sorted.
  - eapply conflict_free_perm; [| exact Hfree].
    symmetry. apply sorted_by_perm.
  - apply Forall_forall. intros x Hx. apply elem_of_sorted_by in Hx.
    by apply (proj1 (Forall_forall _ _) Hall).
Qed.

(** X19: for spans that lie in the text, are not empty and do not overlap,
    the right-to-left splicing of [process] writes what a single pass would
    write: every replaced span exchanged for its replacement, everything
    else copied as it is. Earlier replacements never shift a later one. *)
Theorem process_rebuild text items rules :
  Forall (fun item => 0 <= start_pos item < end_pos item
                      /\ end_pos item <= len text) items ->
  conflict_free items ->
  process text items rules
  = rebuild text (replacements text items rules) (len text).
Proof.
  intros Hall Hfree. unfold process, replacements.
  destruct (is_empty text || is_empty items).
  { simpl. rewrite slice_to_take by apply len_nonneg.
    rewrite take_ge; [done | unfold len; lia]. }
  destruct (process_loop rules (text, ∅) (sort_reverse items))
    as [st' log] eqn:E.
  apply process_loop_rebuild with (bound := len text) in E as [Hst _];
    [| apply len_nonneg | by apply sort_reverse_chain | lia].
  simpl. rewrite Hst, slice_from_drop by apply len_nonneg.
  rewrite drop_ge; [by rewrite app_nil_r | unfold len; lia].
Qed.

Lemma process_rebuild_witness :
  let text := lit "tel 13812345678, mail a@b.cn." in
  let phone := mkSensitiveItem (lit "phone") (lit "13812345678") 4 15 1%float in
  let mail := mkSensitiveItem (lit "email") (lit "a@b.cn") 22 28 1%float in
  let rules :=
    [mkRule (lit "r1") (lit "a") (lit "phone") (lit "mask") true;
     mkRule (lit "r2") (lit "b") (lit "email") (lit "delete") true] in
  process text [phone; mail] rules = lit "tel 138****5678, mail .".
Proof.
  intros text phone mail rules.
  apply (process_rebuild text [phone; mail] rules).
  - constructor; [vm_compute; repeat split; discriminate |].
    constructor; [vm_compute; repeat split; discriminate | constructor].
  - apply conflict_free_cons. split; [| apply conflict_free_cons; split].
    + constructor; [| constructor]. left. simpl. lia.
    + constructor.
    + apply conflict_free_nil.
Defined.

(** *** The length of the output *)

Lemma len_rebuild (text : list N) log right :
  0 <= right <= len text ->
  chain right log.*1 ->
  len (rebuild text log right) = right + growth log.
Proof.
  revert right. induction log as [| [item v] log IH]; intros right Hr; simpl.
  - intros _. rewrite len_slice_to_le; lia.
  - intros (Hs & He & Hc). rewrite !len_app, IH by (try done; lia).
    rewrite len_match_group by lia. lia.
Qed.

(** X20: for spans that lie in the text, are not empty and do not overlap,
    the output is longer than the text by the sum, over the replacements
    made, of the length of the replacement minus the length of the span. *)
Theorem process_length text items rules :
  Forall (fun item => 0 <= start_pos item < end_pos item
                      /\ end_pos item <= len text) items ->
  conflict_free items ->
  len (process text items rules)
  = len text + growth (replacements text items rules).
Proof.
  intros Hall Hfree. unfold process, replacements.
  destruct (is_empty text || is_empty items); [simpl; lia |].
  destruct (process_loop rules (text, ∅) (sort_reverse items))
    as [st' log] eqn:E.
  apply process_loop_rebuild with (bound := len text) in E as [Hst Hchain];
    [| apply len_nonneg | by apply sort_reverse_chain | lia].
  simpl. rewrite Hst, len_app, len_rebuild, len_slice_from;
    [| pose proof (len_nonneg text); lia | done].
  unfold slice_bound. pose proof (len_nonneg text).
  destruct (len text <? 0) eqn:E0; lia.
Qed.

Lemma process_length_witness :
  let text := lit "tel 13812345678, mail a@b.cn." in
  let phone := mkSensitiveItem (lit "phone") (lit "13812345678") 4 15 1%float in
  let mail := mkSensitiveItem (lit "email") (lit "a@b.cn") 22 28 1%float in
  let rules :=
    [mkRule (lit "r1") (lit "a") (lit "phone") (lit "mask") true;
     mkRule (lit "r2") (lit "b") (lit "email") (lit "delete") true] in
  len (process text [phone; mail] rules) = len text + (0 - 6).
Proof.
  intros text phone mail rules.
  apply (process_length text [phone; mail] rules).
  - constructor; [vm_compute; repeat split; discriminate |].
    constructor; [vm_compute; repeat split; discriminate | constructor].
  - apply conflict_free_cons. split; [| apply conflict_free_cons; split].
    + constructor; [| constructor]. left. simpl. lia.
    + constructor.
    + apply conflict_free_nil.
Defined.

(** *** The cache *)

(** A category without [':'] and a value can be read back from their cache
    key. *)
Lemma cache_key_split item :
  contains_char 58 (type item) = false ->
  split_first 58 (cache_key item) = (type item, value item).
Proof.
  intros H. unfold cache_key.
  change (lit ":" ++ value item) with (58%N :: value item).
  by apply split_first_app.
Qed.

Lemma cache_key_inj a b :
  contains_char 58 (type a) = false ->
  contains_char 58 (type b) = false ->
  cache_key a = cache_key b ->
  type a = type b /\ value a = value b.
Proof.
  intros Ha Hb Hk. pose proof (cache_key_split a Ha) as H.
  rewrite Hk, (cache_key_split b Hb) in H. by injection H as <- <-.
Qed.

(** Every entry of the cache is what the strategy gives for each span, of a
    category without [':'], that has its key. *)
Lemma process_item_justified rules result mapping item st' new_value :
  contains_char 58 (type item) = false ->
  (forall it v, contains_char 58 (type it) = false ->
     mapping !! cache_key it = Some v ->
     forall rule s, _find_rule (type it) rules = Some rule ->
       strategies !! strategy rule = Some s ->
       v = apply s (value it) (type it)) ->
  process_item rules (result, mapping) item = (st', new_value) ->
  (forall it v, contains_char 58 (type it) = false ->
     st'.2 !! cache_key it = Some v ->
     forall rule s, _find_rule (type it) rules = Some rule ->
       strategies !! strategy rule = Some s ->
       v = apply s (value it) (type it))
  /\ (forall v, new_value = Some v ->
        exists rule s, _find_rule (type item) rules = Some rule
                       /\ strategies !! strategy rule = Some s
                       /\ v = apply s (value item) (type item)).
Proof.
  intros Hitem Hjust. unfold process_item.
  destruct (_find_rule (type item) rules) as [rule |] eqn:Hrule;
    [| by intros [= <- <-]].
  destruct (enabled rule); [| by intros [= <- <-]].
  destruct (strategies !! strategy rule) as [s |] eqn:Hs;
    [| by intros [= <- <-]].
  destruct (mapping !! cache_key item) as [cached |] eqn:E.
  - intros [= <- <-]. simpl. split; [done |].
    intros v [= <-]. exists rule, s. repeat split; try done.
    by apply (Hjust item cached Hitem E rule s).
  - intros [= <- <-]. simpl. split.
    + intros it v Hit Hlook rule' s' Hrule' Hs'.
      destruct (decide (cache_key item = cache_key it)) as [Hk | Hk].
      * rewrite Hk, lookup_insert_eq in Hlook. injection Hlook as <-.
        destruct (cache_key_inj _ _ Hitem Hit Hk) as [Hty Hv].
        rewrite <- Hty in Hrule'. rewrite Hrule in Hrule'.
        injection Hrule' as <-. rewrite Hs in Hs'. injection Hs' as <-.
        by rewrite Hty, Hv.
      * rewrite lookup_insert_ne in Hlook by done.
        by apply (Hjust it v Hit Hlook rule' s').
    + intros v [= <-]. by exists rule, s.
Qed.

Lemma process_loop_justified rules items result mapping st' log :
  Forall (fun item => contains_char 58 (type item) = false) items ->
  (forall it v, contains_char 58 (type it) = false ->
     mapping !! cache_key it = Some v ->
     forall rule s, _find_rule (type it) rules = Some rule ->
       strategies !! strategy rule = Some s ->
       v = apply s (value it) (type it)) ->
  process_loop rules (result, mapping) items = (st', log) ->
  forall item v, (item, v) ∈ log ->
    exists rule s, _find_rule (type item) rules = Some rule
                   /\ strategies !! strategy rule = Some s
                   /\ v = apply s (value item) (type item).
Proof.
  intros Hall. revert result mapping st' log.
  induction Hall as [| item items Hitem _ IH];
    intros result mapping st' log Hjust; cbn [process_loop].
  - intros [= <- <-] it v H. by apply elem_of_nil in H.
  - destruct (process_item rules (result, mapping) item)
      as [[result1 mapping1] new_value] eqn:E1.
    destruct (process_loop rules (result1, mapping1) items)
      as [st2 log2] eqn:E2.
    intros [= <- <-] it v Hin.
    destruct (process_item_justified _ _ _ _ _ _ Hitem Hjust E1)
      as [Hjust1 Hnew].
    destruct new_value as [w |]; [| by apply (IH _ _ _ _ Hjust1 E2)].
    apply elem_of_cons in Hin as [[= -> ->] | Hin];
      [by apply Hnew | by apply (IH _ _ _ _ Hjust1 E2)].
Qed.

(** X21: for spans whose categories have no [':'] in their names, the cache
    changes nothing: every replacement [process] makes is what the strategy
    of the span's rule gives for the span's own value and category. *)
Theorem replacements_apply text items rules item v :
  Forall (fun item => contains_char 58 (type item) = false) items ->
  (item, v) ∈ replacements text items rules ->
  exists rule s,
    _find_rule (type item) rules = Some rule
    /\ strategies !! strategy rule = Some s
    /\ v = apply s (value item) (type item).
Proof.
  intros Hall. unfold replacements.
  destruct (is_empty text || is_empty items);
    [intros H; by apply elem_of_nil in H |].
  destruct (process_loop rules (text, ∅) (sort_reverse items))
    as [st' log] eqn:E.
  simpl. eapply process_loop_justified; [| | exact E].
  - apply Forall_forall. intros x Hx. apply elem_of_sorted_by in Hx.
    by apply (proj1 (Forall_forall _ _) Hall).
  - intros it w _ Hlook. by rewrite lookup_empty in Hlook.
Qed.

Lemma replacements_apply_witness :
  let text := lit "13812345678 or 13812345678" in
  let first := mkSensitiveItem (lit "phone") (lit "13812345678") 0 11 1%float in
  let second :=
    mkSensitiveItem (lit "phone") (lit "13812345678") 15 26 1%float in
  let rule := mkRule (lit "rule1") (lit "phones") (lit "phone") (lit "mask")
                     true in
  exists rule' s,
    _find_rule (type first) [rule] = Some rule'
    /\ strategies !! strategy rule' = Some s
    /\ lit "138****5678" = apply s (value first) (type first).
Proof.
  intros text first second rule.
  apply (replacements_apply text [first; second] [rule] first
           (lit "138****5678")).
  - repeat constructor.
  - vm_compute. apply list_elem_of_further, list_elem_of_here.
Defined.

(** With a [':'] in a category name two different spans can share a key,
    and the second then gets the replacement of the first. *)
Example cache_key_collision :
  let a := mkSensitiveItem (lit "id") (lit "7:1234567") 0 9 1%float in
  let b := mkSensitiveItem (lit "id:7") (lit "1234567") 10 17 1%float in
  let rules :=
    [mkRule (lit "r1") (lit "a") (lit "id") (lit "delete") true;
     mkRule (lit "r2") (lit "b") (lit "id:7") (lit "mask") true] in
  cache_key a = cache_key b
  /\ replacements (lit "7:1234567 1234567") [a; b] rules
     = [(b, lit "1*****7"); (a, lit "1*****7")].
Proof. vm_compute. auto. Qed.

(** *** The statistic of the preview *)

Lemma existsb_find_rule ty rules :
  existsb (fun rule => str_eqb (data_type rule) ty && enabled rule) rules
  = match _find_rule ty rules with Some _ => true | None => false end.
Proof.
  induction rules as [| r rules IH]; simpl; [done |].
  by destruct (str_eqb (data_type r) ty && enabled r).
Qed.

Lemma find_rule_elem_of ty rules rule :
  _find_rule ty rules = Some rule -> rule ∈ rules.
Proof.
  induction rules as [| r rules IH]; simpl; [done |].
  destruct (str_eqb (data_type r) ty && enabled r).
  - intros [= <-]. by left.
  - intros H. right. by apply IH.
Qed.

Lemma strategies_lookup_known name :
  known_strategy name = true -> exists s, strategies !! name = Some s.
Proof.
  unfold known_strategy. intros H. apply bool_decide_eq_true in H.
  repeat (apply elem_of_cons in H as [-> | H]; [by eexists |]).
  by apply elem_of_nil in H.
Qed.

(** Whether the loop body replaces an item does not depend on the state. *)
Lemma process_item_replaced rules st item :
  match (process_item rules st item).2 with
  | Some _ => replaced rules item = true
  | None => replaced rules item = false
  end.
Proof.
  unfold process_item, replaced. destruct st as [result mapping].
  destruct (_find_rule (type item) rules) as [rule |]; [| done].
  destruct (enabled rule); [| done].
  destruct (strategies !! strategy rule) as [s |]; [| done].
  by destruct (mapping !! cache_key item).
Qed.

Lemma process_loop_log_length rules items st :
  length (process_loop rules st items).2
  = length (List.filter (replaced rules) items).
Proof.
  revert st. induction items as [| item items IH]; intros st; [done |].
  cbn [process_loop List.filter].
  pose proof (process_item_replaced rules st item) as H.
  destruct (process_item rules st item) as [st1 new_value].
  specialize (IH st1). destruct (process_loop rules st1 items) as [st2 log].
  simpl in *. destruct new_value; rewrite H; simpl; by rewrite IH.
Qed.

Lemma filter_length_le_impl {A} (p q : A -> bool) l :
  (forall x, p x = true -> q x = true) ->
  (length (List.filter p l) <= length (List.filter q l))%nat.
Proof.
  intros H. induction l as [| x l IH]; simpl; [lia |].
  destruct (p x) eqn:E.
  - rewrite (H x E). simpl. lia.
  - destruct (q x); simpl; lia.
Qed.

Lemma replaced_or_unknown rules item :
  existsb (fun rule => str_eqb (data_type rule) (type item) && enabled rule)
          rules
  = xorb (replaced rules item) (unknown_strategy rules item).
Proof.
  rewrite existsb_find_rule. unfold replaced, unknown_strategy.
  destruct (_find_rule (type item) rules) as [rule |] eqn:E; [| done].
  destruct (find_rule_Some _ _ _ E) as [_ ->].
  destruct (known_strategy (strategy rule)) eqn:Hk.
  - apply strategies_lookup_known in Hk as [s ->]. done.
  - by rewrite strategies_lookup_unknown.
Qed.

Lemma filter_length_xorb {A} (p q r : A -> bool) l :
  (forall x, p x = xorb (q x) (r x)) ->
  (forall x, q x = true -> r x = false) ->
  length (List.filter p l)
  = (length (List.filter q l) + length (List.filter r l))%nat.
Proof.
  intros Hp Hqr. induction l as [| x l IH]; simpl; [done |].
  rewrite Hp. pose proof (Hqr x) as Hx.
  destruct (q x), (r x); simpl; first [lia | by specialize (Hx eq_refl)].
Qed.

Lemma filter_unknown_strategy_nil rules items :
  Forall (fun rule => known_strategy (strategy rule) = true) rules ->
  List.filter (unknown_strategy rules) items = [].
Proof.
  intros Hknown. induction items as [| x items IH]; simpl; [done |].
  assert (unknown_strategy rules x = false) as ->; [| done].
  unfold unknown_strategy.
  destruct (_find_rule (type x) rules) as [rule |] eqn:E; [| done].
  by rewrite (proj1 (Forall_forall _ _) Hknown rule
                (find_rule_elem_of _ _ _ E)).
Qed.

(** X22: the preview's statistic [desensitized_items] is at least the number
    of replacements [process] makes. On a text that is not empty it exceeds
    that number by exactly the number of spans whose rule names an unknown
    strategy: each of these is counted though [process] leaves it as it is.
    So it is equal to the number of replacements when every rule names a
    strategy there is. *)
Theorem desensitized_items_counts text items rules :
  (length (replacements text items rules) <= desensitized_items items rules)%nat
  /\ (text <> [] ->
      desensitized_items items rules
      = (length (replacements text items rules)
         + length (List.filter (unknown_strategy rules) items))%nat)
  /\ (text <> [] ->
      Forall (fun rule => known_strategy (strategy rule) = true) rules ->
      length (replacements text items rules) = desensitized_items items rules).
Proof.
  assert (length (process_loop rules (text, ∅) (sort_reverse items)).2
          = length (List.filter (replaced rules) items)) as Hlog.
  { rewrite process_loop_log_length, sort_reverse_filter.
    apply length_sorted_by. }
  assert (desensitized_items items rules
          = (length (List.filter (replaced rules) items)
             + length (List.filter (unknown_strategy rules) items))%nat)
    as Hsum.
  { unfold desensitized_items. apply filter_length_xorb.
    - intros x. apply replaced_or_unknown.
    - intros x. unfold replaced, unknown_strategy.
      destruct (_find_rule (type x) rules) as [rule |]; [| done].
      destruct (known_strategy (strategy rule)) eqn:Hk; [done |].
      rewrite strategies_lookup_unknown by done.
      by rewrite andb_false_r. }
  assert (text <> [] ->
          length (replacements text items rules)
          = length (List.filter (replaced rules) items)) as Hrep.
  { intros Htext. unfold replacements.
    destruct text as [| c text]; [done |].
    destruct items as [| item items]; [done |].
    cbn [is_empty orb]. exact Hlog. }
  split; [| split].
  - rewrite Hsum. unfold replacements.
    destruct (is_empty text || is_empty items); [simpl; lia |].
    rewrite Hlog. lia.
  - intros Htext. by rewrite Hsum, Hrep.
  - intros Htext Hknown. rewrite Hsum, Hrep by done.
    rewrite filter_unknown_strategy_nil by done. simpl. lia.
Qed.

Lemma desensitized_items_counts_witness :
  let text := lit "tel 13812345678, mail a@b.cn." in
  let phone := mkSensitiveItem (lit "phone") (lit "13812345678") 4 15 1%float in
  let mail := mkSensitiveItem (lit "email") (lit "a@b.cn") 22 28 1%float in
  let rules :=
    [mkRule (lit "r1") (lit "a") (lit "phone") (lit "mask") true;
     mkRule (lit "r2") (lit "b") (lit "email") (lit "encrypt") true] in
  desensitized_items [phone; mail] rules
  = (length (replacements text [phone; mail] rules)
     + length (List.filter (unknown_strategy rules) [phone; mail]))%nat.
Proof.
  intros text phone mail rules.
  apply (proj1 (proj2 (desensitized_items_counts text [phone; mail] rules))).
  discriminate.
Defined.

(** The statistic counts a span that [process] leaves as it is. *)
Example desensitized_items_overcount :
  let text := lit "mail a@b.cn." in
  let mail := mkSensitiveItem (lit "email") (lit "a@b.cn") 5 11 1%float in
  let rules :=
    [mkRule (lit "r2") (lit "b") (lit "email") (lit "encrypt") true] in
  desensitized_items [mail] rules = 1%nat
  /\ replacements text [mail] rules = []
  /\ process text [mail] rules = text.
Proof. vm_compute. auto. Qed.

(** ** The NLP step *)

Lemma nlp_entity_step_spec items ent :
  nlp_entity_step items ent
  = match nlp_data_type ent with
    | Some data_type =>
        if end_char ent <? start_char ent then Raise ValueError
        else Ok (items ++ [mkSensitiveItem data_type (ent_text ent)
                             (start_char ent) (end_char ent) nlp_confidence])
    | None => Ok items
    end.
Proof.
  unfold nlp_entity_step, nlp_data_type, SensitiveItem_init.
  destruct (str_eqb (label_ ent) (lit "PERSON")).
  - by destruct (end_char ent <? start_char ent).
  - destruct (existsb _ _); [| done].
    by destruct (end_char ent <? start_char ent).
Qed.

Lemma foldM_nlp_entity_step ents items :
  foldM nlp_entity_step items ents
  = if forallb (fun ent => match nlp_data_type ent with
                           | Some _ => start_char ent <=? end_char ent
                           | None => true
                           end) ents
    then Ok (items ++ nlp_items ents)
    else Raise ValueError.
Proof.
  revert items. induction ents as [| ent ents IH]; intros items; simpl.
  - by rewrite app_nil_r.
  - rewrite nlp_entity_step_spec. unfold nlp_items. simpl.
    destruct (nlp_data_type ent) as [data_type |]; simpl.
    + destruct (end_char ent <? start_char ent) eqn:E.
      * assert ((start_char ent <=? end_char ent) = false) as -> by lia.
        done.
      * assert ((start_char ent <=? end_char ent) = true) as -> by lia.
        simpl. change (mbind ?f (Ok ?x)) with (f x). cbv beta.
        rewrite IH. by rewrite <- app_assoc.
    + change (mbind ?f (Ok ?x)) with (f x). cbv beta. apply IH.
Qed.

(** X23: on the entities of a loaded pipeline, [_nlp_recognition] keeps the
    PERSON entities as [name] and the GPE, LOC and FAC entities as [address],
    in their order, each with the entity's text and positions and confidence
    0.8, and skips all others; it raises [ValueError] exactly when a kept
    entity ends before it starts, and then returns nothing at all. *)
Theorem nlp_recognition_spec nlp text ents :
  nlp text = Ok ents ->
  _nlp_recognition (Ok nlp) text
  = if forallb (fun ent => match nlp_data_type ent with
                           | Some _ => start_char ent <=? end_char ent
                           | None => true
                           end) ents
    then Ok (nlp_items ents)
    else Raise ValueError.
Proof.
  intros H. unfold _nlp_recognition.
  change (mbind ?f (Ok ?x)) with (f x). cbv beta. rewrite H.
  change (mbind ?f (Ok ?x)) with (f x). cbv beta.
  by rewrite foldM_nlp_entity_step.
Qed.

Lemma nlp_recognition_spec_witness :
  let pipeline (text : list N) :=
    Ok [Entity (lit "PERSON") (lit "Li") 0 2;
        Entity (lit "DATE") (lit "May") 3 6;
        Entity (lit "GPE") (lit "Pekin") 10 15] in
  _nlp_recognition (Ok pipeline) (lit "Li, May, Pekin")
  = Ok [mkSensitiveItem (lit "name") (lit "Li") 0 2 nlp_confidence;
        mkSensitiveItem (lit "address") (lit "Pekin") 10 15 nlp_confidence].
Proof.
  intros pipeline.
  exact (nlp_recognition_spec pipeline (lit "Li, May, Pekin") _ eq_refl).
Defined.

(** ** Recognition and processing together *)

(** What recognition without NLP hands to the processor. *)
Lemma identify_without_nlp_items unicode_decimal load_nlp_model text :
  exists regex_items,
    identify_sensitive_data unicode_decimal load_nlp_model text false
    = Ok (sorted_by key_lt regex_items)
    /\ Forall (scanned unicode_decimal text) regex_items
    /\ conflict_free regex_items.
Proof.
  destruct (regex_recognition_loops unicode_decimal text)
    as (st & Hloops & _ & Hfree).
  assert (_regex_recognition unicode_decimal text = Ok st.1) as Hscan
    by (unfold _regex_recognition; by rewrite Hloops).
  exists st.1. split; [| split; [by apply regex_recognition_scanned | done]].
  unfold identify_sensitive_data. rewrite Hscan. simpl. f_equal.
  unfold _deduplicate. destruct st.1 as [| first items] eqn:E; [done |].
  apply (foldl_dedup_step_conflict_free_input _ []). rewrite app_nil_l.
  eapply conflict_free_perm; [| exact Hfree].
  symmetry. apply (sorted_by_perm key_lt (first :: items)).
Qed.

Lemma process_loop_log_items rules items st item v :
  (item, v) ∈ (process_loop rules st items).2 -> item ∈ items.
Proof.
  revert st. induction items as [| it items IH]; intros st;
    cbn [process_loop].
  - intros H. by apply elem_of_nil in H.
  - destruct (process_item rules st it) as [st1 new_value].
    specialize (IH st1). destruct (process_loop rules st1 items) as [st2 log].
    simpl in *. intros H.
    destruct new_value as [w |]; [| right; by apply IH].
    apply elem_of_cons in H as [[= -> _] | H]; [by left | right; by apply IH].
Qed.

Lemma growth_zero log :
  Forall (fun '(item, v) => len v = end_pos item - start_pos item) log ->
  growth log = 0.
Proof.
  induction 1 as [| [item v] log H _ IH]; [done |].
  change (growth ((item, v) :: log))
    with (len v - (end_pos item - start_pos item) + growth log).
  lia.
Qed.

Lemma len_mask_apply_fixed (value : list N) :
  (len value = 18 -> len (mask_apply value (lit "id_card")) = 18)
  /\ (len value = 11 -> len (mask_apply value (lit "phone")) = 11)
  /\ (8 <= len value -> len (mask_apply value (lit "bank_card")) = len value).
Proof.
  split; [| split]; intros H.
  - rewrite mask_apply_id_card, !len_app, len_stars, len_slice_to_le,
      len_last_four by lia. lia.
  - rewrite mask_apply_phone, !len_app, len_slice_to_le, len_last_four by lia.
    change (len (lit "****")) with 4. lia.
  - rewrite mask_apply_bank_card, !len_app, len_stars, len_slice_to_le,
      len_last_four by lia. lia.
Qed.

(** X24: recognition without NLP followed by [process] under Mask rules for
    [phone], [id_card] and [bank_card] keeps the length of the text: every
    number found is masked in place, character for character. *)
Theorem identify_process_keeps_length unicode_decimal load_nlp_model text
    rules :
  Forall (fun rule =>
            strategy rule = lit "mask"
            /\ data_type rule ∈ [lit "phone"; lit "id_card"; lit "bank_card"])
         rules ->
  exists items,
    identify_sensitive_data unicode_decimal load_nlp_model text false
    = Ok items
    /\ len (process text items rules) = len text.
Proof.
  intros Hrules.
  destruct (identify_without_nlp_items unicode_decimal load_nlp_model text)
    as (regex_items & Hid & Hscanned & Hfree).
  exists (sorted_by key_lt regex_items). split; [done |].
  set (items := sorted_by key_lt regex_items).
  assert (Forall (scanned unicode_decimal text) items) as Hitems.
  { apply Forall_forall. intros x Hx. apply elem_of_sorted_by in Hx.
    by apply (proj1 (Forall_forall _ _) Hscanned). }
  assert (conflict_free items) as Hfree'.
  { eapply conflict_free_perm; [| exact Hfree].
    symmetry. apply sorted_by_perm. }
  unfold process.
  destruct (is_empty text || is_empty items); [done |].
  destruct (process_loop rules (text, ∅) (sort_reverse items))
    as [st' log] eqn:E.
  pose proof E as E'.
  apply process_loop_rebuild with (bound := len text) in E' as [Hst Hchain];
    [| apply len_nonneg | | lia].
  2: { apply sort_reverse_chain; [| done].
       eapply Forall_impl; [exact Hitems |].
       by intros x (? & ? & _). }
  simpl. rewrite Hst, len_app, len_rebuild, len_slice_from;
    [| pose proof (len_nonneg text); lia | done].
  assert (growth log = 0) as ->.
  { apply growth_zero, Forall_forall. intros [item v] Hin.
    assert (item ∈ items) as Hitem.
    { apply (elem_of_sorted_by (fun y x => start_pos x <? start_pos y)).
      apply (process_loop_log_items rules _ (text, ∅) item v).
      fold (sort_reverse items). by rewrite E. }
    pose proof (proj1 (Forall_forall _ _) Hitems item Hitem)
      as (Hpos & Hend & Hvalue & _ & pattern & Hin' & Hm).
    assert (len (value item) = end_pos item - start_pos item) as Hlen
      by (rewrite Hvalue; apply len_match_group; lia).
    destruct (REGEX_PATTERNS_lengths _ _ _ _ _ Hin' Hm)
      as (Hl_id & Hl_phone & Hl_bank & _).
    assert (Forall (fun it => contains_char 58 (type it) = false)
                   (sort_reverse items)) as Hcolon.
    { apply Forall_forall. intros x Hx. apply elem_of_sorted_by in Hx.
      pose proof (proj1 (Forall_forall _ _) Hitems x Hx)
        as (_ & _ & _ & _ & p & Hp & _).
      apply REGEX_PATTERNS_names in Hp.
      repeat (apply elem_of_cons in Hp as [-> | Hp]; [done |]).
      by apply elem_of_nil in Hp. }
    destruct (process_loop_justified rules _ text ∅ st' log Hcolon
                ltac:(intros it w _ Hl; by rewrite lookup_empty in Hl)
                E item v Hin)
      as (rule & s & Hrule & Hs & ->).
    pose proof (proj1 (Forall_forall _ _) Hrules rule
                  (find_rule_elem_of _ _ _ Hrule)) as [Hmask Hty].
    destruct (find_rule_Some _ _ _ Hrule) as [Hdt _].
    rewrite Hmask in Hs.
    change (strategies !! lit "mask") with (Some MaskStrategy) in Hs.
    injection Hs as <-. cbn [apply].
    rewrite Hdt in Hty. rewrite <- Hlen.
    destruct (len_mask_apply_fixed (value item)) as (Hm1 & Hm2 & Hm3).
    repeat (apply elem_of_cons in Hty as [Hty | Hty]);
      [| | | by apply elem_of_nil in Hty]; rewrite Hty.
    - specialize (Hl_phone Hty).
      assert (len (value item) = 11) as H11 by lia.
      rewrite (Hm2 H11). lia.
    - specialize (Hl_id Hty).
      assert (len (value item) = 18) as H18 by lia.
      rewrite (Hm1 H18). lia.
    - specialize (Hl_bank Hty). apply Hm3. lia. }
  unfold slice_bound. pose proof (len_nonneg text).
  destruct (len text <? 0) eqn:E0; lia.
Qed.

Lemma identify_process_keeps_length_witness :
  let text := lit "id 110101199001011234, tel 13812345678" in
  let rules :=
    [mkRule (lit "r1") (lit "a") (lit "phone") (lit "mask") true;
     mkRule (lit "r2") (lit "b") (lit "id_card") (lit "mask") true] in
  exists items,
    identify_sensitive_data ascii_digit (Raise RecognitionError) text false
    = Ok items
    /\ len (process text items rules) = len text.
Proof.
  intros text rules.
  apply (identify_process_keeps_length ascii_digit (Raise RecognitionError)
           text rules).
  constructor; [split; [reflexivity | set_solver] |].
  constructor; [split; [reflexivity | set_solver] | constructor].
Defined.

(** ** Pattern matches and NLP entities together *)

(** One step of the deduplicator on items of confidence 1.0 or 0.8, where
    items of confidence 1.0 that overlap are one and the same: no accepted
    item of confidence 1.0 is given up, and a candidate of confidence 1.0 is
    accepted. *)
Lemma dedup_step_keeps deduplicated item :
  (forall x, x ∈ item :: deduplicated ->
     confidence x = 1%float \/ confidence x = nlp_confidence) ->
  (forall y, y ∈ deduplicated ->
     confidence item = 1%float -> confidence y = 1%float ->
     overlap item y = true -> item = y) ->
  forall r, r ∈ item :: deduplicated -> confidence r = 1%float ->
    r ∈ dedup_step deduplicated item.
Proof.
  intros Hconf Hsame r Hr Hr1. unfold dedup_step.
  destruct (first_overlap item deduplicated O) as [[i existing] |] eqn:E.
  2: { apply elem_of_app. apply elem_of_cons in Hr as [-> | Hr];
         [right; by apply list_elem_of_singleton | by left]. }
  apply first_overlap_Some in E as (_ & Hi & Hov & _).
  rewrite Nat.sub_0_r in Hi.
  assert (existing ∈ deduplicated) as Hex
    by (by eapply list_elem_of_lookup_2).
  assert (r ∈ item :: deduplicated -> r <> existing ->
          r ∈ <[i := item]> deduplicated) as Hins.
  { intros Hin Hne. apply elem_of_cons in Hin as [-> | Hin].
    - apply list_elem_of_lookup. exists i. apply list_lookup_insert_eq.
      by eapply lookup_lt_Some.
    - apply list_elem_of_lookup in Hin as [j Hj].
      apply list_elem_of_lookup. exists j.
      rewrite list_lookup_insert_ne; [done |].
      intros <-. rewrite Hi in Hj. by injection Hj as <-. }
  assert (r ∈ item :: deduplicated -> item = existing ->
          r ∈ <[i := item]> deduplicated) as Hid.
  { intros Hin ->. rewrite list_insert_id by done.
    by apply elem_of_cons in Hin as [-> | Hin]. }
  destruct (Hconf item ltac:(by left)) as [Hitem | Hitem];
    destruct (Hconf existing ltac:(by right)) as [Hexc | Hexc];
    rewrite Hitem, Hexc;
    match goal with
    | |- context [PrimFloat.ltb ?a ?b] =>
        let v := eval vm_compute in (PrimFloat.ltb a b) in
        change (PrimFloat.ltb a b) with v
    end;
    repeat match goal with
    | |- context [PrimFloat.eqb ?a ?b] =>
        let v := eval vm_compute in (PrimFloat.eqb a b) in
        change (PrimFloat.eqb a b) with v
    end; cbv iota.
  - apply Hid; [done |]. by apply Hsame.
  - apply Hins; [done |]. intros ->. rewrite Hexc in Hr1.
    by vm_compute in Hr1.
  - apply elem_of_cons in Hr as [-> | Hr]; [| done].
    rewrite Hitem in Hr1. by vm_compute in Hr1.
  - apply elem_of_cons in Hr as [-> | Hr]; [| done].
    rewrite Hitem in Hr1. by vm_compute in Hr1.
Qed.

Lemma foldl_dedup_step_keeps l : forall deduplicated,
  (forall x, x ∈ deduplicated ++ l ->
     confidence x = 1%float \/ confidence x = nlp_confidence) ->
  (forall x y, x ∈ deduplicated ++ l -> y ∈ deduplicated ++ l ->
     confidence x = 1%float -> confidence y = 1%float ->
     overlap x y = true -> x = y) ->
  forall r, r ∈ deduplicated ++ l -> confidence r = 1%float ->
    r ∈ foldl dedup_step deduplicated l.
Proof.
  induction l as [| item l IH]; intros deduplicated Hconf Hsame r Hr Hr1;
    simpl.
  { by rewrite app_nil_r in Hr. }
  assert (forall x, x ∈ dedup_step deduplicated item ++ l ->
                    x ∈ deduplicated ++ item :: l) as Hsub.
  { intros x Hx. apply elem_of_app in Hx as [Hx | Hx].
    - apply elem_of_dedup_step in Hx as [Hx | ->];
        apply elem_of_app; [by left | right; by left].
    - apply elem_of_app. right. by right. }
  apply IH; [by auto | by auto | | done].
  apply elem_of_app in Hr as [Hr | Hr].
  - apply elem_of_app. left. apply dedup_step_keeps; [| | by right | done].
    + intros x Hx. apply Hconf. apply elem_of_app.
      apply elem_of_cons in Hx as [-> | Hx]; [right; by left | by left].
    + intros y Hy. apply Hsame; apply elem_of_app;
        [right; by left | by left].
  - apply elem_of_cons in Hr as [-> | Hr]; apply elem_of_app;
      [left | by right].
    apply dedup_step_keeps; [| | by left | done].
    + intros x Hx. apply Hconf. apply elem_of_app.
      apply elem_of_cons in Hx as [-> | Hx]; [right; by left | by left].
    + intros y Hy. apply Hsame; apply elem_of_app;
        [right; by left | by left].
Qed.

(** The items of [_nlp_recognition] all have confidence 0.8. *)
Lemma nlp_recognition_confidence load_nlp_model text items :
  _nlp_recognition load_nlp_model text = Ok items ->
  Forall (fun item => confidence item = nlp_confidence) items.
Proof.
  unfold _nlp_recognition.
  destruct load_nlp_model as [nlp | e]; [| done].
  change (mbind ?f (Ok ?x)) with (f x). cbv beta.
  destruct (nlp text) as [ents | e]; [| done].
  change (mbind ?f (Ok ?x)) with (f x). cbv beta.
  rewrite foldM_nlp_entity_step. case_match; [| done].
  intros [= <-]. apply Forall_forall. intros x Hx.
  rewrite ?app_nil_l in Hx. unfold nlp_items in Hx. apply list_elem_of_omap in Hx as (ent & _ & Hx).
  destruct (nlp_data_type ent); [| done]. by injection Hx as <-.
Qed.

(** X25: no pattern match is ever lost to NLP. Whatever entities the NLP
    backend reports, and wherever they lie, every item of the pattern scan
    is among the items [identify_sensitive_data] returns. *)
Theorem identify_keeps_regex_items unicode_decimal load_nlp_model text use_nlp
    regex_items items :
  _regex_recognition unicode_decimal text = Ok regex_items ->
  identify_sensitive_data unicode_decimal load_nlp_model text use_nlp
  = Ok items ->
  Forall (fun item => item ∈ items) regex_items.
Proof.
  intros Hscan.
  destruct (regex_recognition_loops unicode_decimal text)
    as (st & Hloops & _ & Hfree).
  assert (st.1 = regex_items) as Hst.
  { unfold _regex_recognition in Hscan. rewrite Hloops in Hscan.
    by injection Hscan. }
  rewrite Hst in Hfree. clear st Hloops Hst.
  pose proof (regex_recognition_scanned _ _ _ Hscan) as Hscanned.
  assert (forall nlp_items,
            Forall (fun item => confidence item = nlp_confidence) nlp_items ->
            Forall (fun item => item ∈ _deduplicate (regex_items ++ nlp_items))
                   regex_items) as Hkeep.
  { intros nlp_items Hnlp. apply Forall_forall. intros r Hr.
    pose proof (proj1 (Forall_forall _ _) Hscanned) as Hreg.
    assert (forall x, x ∈ regex_items ++ nlp_items ->
              confidence x = 1%float -> x ∈ regex_items) as Hone.
    { intros x Hx Hx1. apply elem_of_app in Hx as [Hx | Hx]; [done |].
      rewrite (proj1 (Forall_forall _ _) Hnlp x Hx) in Hx1.
      by vm_compute in Hx1. }
    unfold _deduplicate.
    destruct (regex_items ++ nlp_items) as [| first rest] eqn:E.
    { apply (f_equal length) in E. rewrite length_app in E.
      apply list_elem_of_lookup in Hr as [i Hi].
      apply lookup_lt_Some in Hi. simpl in E. lia. }
    rewrite <- E in *. clear E first rest.
    apply (foldl_dedup_step_keeps _ []); rewrite ?app_nil_l.
    - intros x Hx. apply elem_of_sorted_by, elem_of_app in Hx as [Hx | Hx].
      + left. by destruct (Hreg x Hx) as (_ & _ & _ & ? & _).
      + right. by apply (proj1 (Forall_forall _ _) Hnlp).
    - intros x y Hx Hy Hx1 Hy1 Hov.
      apply elem_of_sorted_by in Hx, Hy.
      apply Hone in Hx; [| done]. apply Hone in Hy; [| done].
      apply list_elem_of_lookup in Hx as [i Hi].
      apply list_elem_of_lookup in Hy as [j Hj].
      destruct (decide (i = j)) as [-> | Hne];
        [rewrite Hi in Hj; by injection Hj |].
      apply overlap_true in Hov.
      pose proof (Hfree i j x y Hi Hj Hne) as Hd.
      unfold disjoint_spans in Hd. lia.
    - apply elem_of_sorted_by, elem_of_app. by left.
    - by destruct (Hreg r Hr) as (_ & _ & _ & ? & _). }
  destruct (identify_cases unicode_decimal load_nlp_model text use_nlp)
    as (regex_items' & Hscan' & ->).
  rewrite Hscan in Hscan'. injection Hscan' as <-.
  assert (Forall (fun item => item ∈ _deduplicate regex_items) regex_items)
    as Hplain.
  { specialize (Hkeep [] ltac:(constructor)). by rewrite app_nil_r in Hkeep. }
  destruct use_nlp; [| by intros [= <-]].
  destruct (_nlp_recognition load_nlp_model text) as [nlp_items | []] eqn:En;
    intros [= <-]; [| done | done].
  apply Hkeep. by eapply nlp_recognition_confidence.
Qed.

Lemma identify_keeps_regex_items_witness :
  let pipeline (text : list N) :=
    Ok [Entity (lit "PERSON") (lit "Li, tel 138") 0 11;
        Entity (lit "GPE") (lit "678") 16 19] in
  let phone :=
    mkSensitiveItem (lit "phone") (lit "13812345678") 8 19 1%float in
  Forall (fun item => item ∈ [phone]) [phone].
Proof.
  intros pipeline phone.
  apply (identify_keeps_regex_items ascii_digit (Ok pipeline)
           (lit "Li, tel 13812345678") true).
  - vm_compute. reflexivity.
  - vm_compute. reflexivity.
Defined.

(** ** What the output still shows, for several spans *)

(** *** What a strategy writes *)


Lemma mask_apply_address (value : list N) :
  1 <= len value -> mask_apply value (lit "address") = _mask_address value.
Proof. intros H. unfold mask_apply. by rewrite str_eqb_nil by lia. Qed.


(** *** Windows of one class *)







(** *** The text outside the spans *)




(** *** Spans with text between them *)









(** *** The rebuilt text *)





(** *** The values a strategy hands back *)

Lemma substring_refl (v : list N) : substring v v.
Proof. exists [], []. by rewrite app_nil_r. Qed.

(** [rewritten] leaves out nothing that the code rewrites: for every other
    category and value, what the strategy writes still contains the value.
    Mask hands back a name of one character, an [id_card], [phone] or
    [bank_card] below its minimum (a [bank_card] of 8 is all kept), an
    e-mail address without ['@'], and it only adds to an address that is
    kept whole and to an e-mail address that starts with ['@']. *)
Lemma not_rewritten_keeps s ty (value : list N) :
  ~ rewritten s ty value -> substring value (apply s value ty).
Proof.
  intros Hnot. destruct value as [| c value'] eqn:Ev.
  { exists [], (apply s [] ty). done. }
  rewrite <- Ev in *.
  assert (1 <= len value) as Hlen
    by (rewrite Ev; unfold len; simpl; lia).
  clear Ev c value'.
  destruct s; cbn [rewritten apply] in *; [| lia | lia].
  destruct (str_eqb ty (lit "name")) eqn:E1.
  { apply str_eqb_true in E1 as ->. rewrite mask_apply_name.
    destruct (len value <=? 1) eqn:E; [apply substring_refl | lia]. }
  destruct (str_eqb ty (lit "id_card")) eqn:E2.
  { apply str_eqb_true in E2 as ->.
    rewrite (proj1 (mask_apply_short value)) by lia.
    apply substring_refl. }
  destruct (str_eqb ty (lit "phone")) eqn:E3.
  { apply str_eqb_true in E3 as ->.
    rewrite (proj1 (proj2 (mask_apply_short value))) by lia.
    apply substring_refl. }
  destruct (str_eqb ty (lit "address")) eqn:E4.
  { apply str_eqb_true in E4 as ->.
    rewrite mask_apply_address, mask_address_kept by done.
    destruct (decide (kept_prefix value = value)) as [-> | Hne];
      [| exfalso; by apply Hnot].
    by exists [], (lit "******"). }
  destruct (str_eqb ty (lit "bank_card")) eqn:E5.
  { apply str_eqb_true in E5 as ->.
    destruct (Z_lt_ge_dec (len value) 8) as [Hlt | Hge].
    - rewrite (proj2 (proj2 (mask_apply_short value))) by lia.
      apply substring_refl.
    - assert (len value = 8) as H8 by lia.
      rewrite mask_apply_bank_card by lia. rewrite H8. simpl stars.
      rewrite slice_to_take by lia. unfold slice_from, slice_bound.
      rewrite H8. simpl. rewrite take_drop. apply substring_refl. }
  destruct (str_eqb ty (lit "email")) eqn:E6.
  { apply str_eqb_true in E6 as ->. rewrite mask_apply_email.
    destruct (contains_char 64 value) eqn:Hat.
    2: { rewrite mask_email_without_at by done. apply substring_refl. }
    unfold _mask_email. rewrite Hat. cbn [negb]. cbv iota.
    destruct (split_first_spec 64 value Hat) as [Hvalue _].
    destruct (split_first 64 value) as [username domain].
    cbn [fst snd] in *.
    destruct username as [| u username].
    - exists (lit "*"), []. change (len [] <=? 1) with true. cbv iota.
      rewrite Hvalue at 1. by rewrite app_nil_r.
    - exfalso. apply Hnot. split; [done |]. unfold len. simpl. lia. }
  lia.
Qed.

(** Why the spans have to lie apart: two spans that touch, each handed back
    by Mask (names of one character), are joined to the value of the
    third. *)
Example process_touching_spans_join :
  let rule := mkRule (lit "rule1") (lit "names") (lit "name") (lit "mask")
                     true in
  let items :=
    [mkSensitiveItem (lit "name") (lit "ab") 0 2 nlp_confidence;
     mkSensitiveItem (lit "name") (lit "a") 3 4 nlp_confidence;
     mkSensitiveItem (lit "name") (lit "b") 4 5 nlp_confidence] in
  process (lit "ab-ab") items [rule] = lit "a*-ab"
  /\ substring (lit "ab") (process (lit "ab-ab") items [rule]).
Proof.
  intros rule items. split; [vm_compute; reflexivity |].
  by exists (lit "a*-"), [].
Qed.
